(** * A simple source finder: noise estimate, 2D Gaussian fit, extraction loop

    Shallow embedding of the code cells of [6_5_source_finding.ipynb]
    (a Python 2 notebook): the lambda [mad_mean] and the functions
    [gauss2D], [err], [fit_gaussian] and [source_finder].

    Conventions of the embedding.
    - NumPy floats are idealised as exact rationals ([Q]); numerical results
      are compared with [==] ([Qeq]), rounding is not modelled.  The
      theorems about the code are kept to what does not rest on exactness:
      tests, slices, shapes, copies, and values that binary64 arithmetic
      computes exactly (the zeros of an all-zero image); what a pass leaves
      in the arrays is stated as the operation the code performs on the
      operands it has.  The statements of the loop body that update the
      arrays are given a second time over binary64 numbers, in the module
      [Binary64], where rounding shows.
    - A 2D array is the list of its rows; a 1D array is a list.
    - A Python exception is a value [Raise e] of the result type [res].
    - [np.exp], [np.sqrt], [np.log] and [scipy.optimize.leastsq] are library
      routines outside the notebook: they are the fields of the class
      [Numerics], over which the notebook's functions are defined.
    - [while True] has no bound in the source; [loop] takes a fuel argument
      and answers [None] when the fuel runs out before the loop has ended. *)

From Stdlib Require Import QArith Qabs Qminmax ZArith List Bool Lia Lqa.
From Stdlib Require Import PrimFloat.
From Stdlib Require Import Setoid Morphisms.
Import ListNotations.

Open Scope Q_scope.

(** ** Exceptions and results *)

Inductive exn : Type :=
| ValueError
| TypeError
| IndexError.

Inductive res (A : Type) : Type :=
| Ok (a : A)
| Raise (e : exn).

Arguments Ok {A} a.
Arguments Raise {A} e.

Definition bind {A B : Type} (r : res A) (k : A -> res B) : res B :=
  match r with
  | Ok a => k a
  | Raise e => Raise e
  end.

Notation "x <- r ;; k" := (bind r (fun x => k))
  (at level 61, r at next level, right associativity).

(** ** Arrays *)

Definition array1 : Type := list Q.
Definition array2 : Type := list (list Q).

(** [a.shape] of a 2D array.  An array without rows is given zero columns. *)
Definition shape (a : array2) : nat * nat := (length a, length (hd [] a)).

(** [a.flatten()], row-major. *)
Definition flatten (a : array2) : array1 := concat a.

(** [a.size] *)
Definition size (a : array2) : nat := length (flatten a).

(** [a[i, j]]; [0] outside the array (only used inside it). *)
Definition get2 (a : array2) (i j : nat) : Q := nth j (nth i a []) 0.

(** All rows have [m] columns and there are [n] rows. *)
Definition has_shape (a : array2) (n m : nat) : Prop :=
  length a = n /\ Forall (fun row => length row = m) a.

Definition of_nat (n : nat) : Q := inject_Z (Z.of_nat n).

(** Comparisons of floats as booleans. *)
Definition Qltb (x y : Q) : bool := negb (Qle_bool y x).

(** [np.sum] and [np.mean] over every element. *)
Definition np_sum (l : array1) : Q := fold_right Qplus 0 l.

Definition np_mean (a : array2) : Q := np_sum (flatten a) / of_nat (size a).

(** [a - c] and [abs(a)], element by element. *)
Definition sub_scalar (a : array2) (c : Q) : array2 :=
  map (map (fun x => x - c)) a.

Definition np_abs (a : array2) : array2 := map (map Qabs) a.

(** [mad_mean = lambda a: np.mean( abs(a - np.mean(a) ))] *)
Definition mad_mean (a : array2) : Q :=
  np_mean (np_abs (sub_scalar a (np_mean a))).

(** The noise estimator as the specification words it: the mean [mu] of all
    samples, then the mean of [|x - mu|] over all samples. *)
Definition spec_estimateNoise (samples : list Q) : Q :=
  let n := of_nat (length samples) in
  let mu := np_sum samples / n in
  np_sum (map (fun x => Qabs (x - mu)) samples) / n.

(** [a.max()]: raises [ValueError] on an array without elements. *)
Definition np_max (a : array2) : res Q :=
  match flatten a with
  | [] => Raise ValueError
  | x :: l => Ok (fold_left Qmax l x)
  end.

(** Indices [j] of a row with [row[j] == v], counted from [j0]. *)
Fixpoint row_matches (v : Q) (row : list Q) (j0 : nat) : list nat :=
  match row with
  | [] => []
  | x :: row' =>
      if Qeq_bool x v then j0 :: row_matches v row' (S j0)
      else row_matches v row' (S j0)
  end.

(** [np.where(a == v)]: the (row, column) pairs of the matches, row-major;
    the source takes the two index arrays apart and keeps element [0] of
    each, which is the first pair. *)
Fixpoint np_where_eq_from (a : array2) (v : Q) (i0 : nat) : list (nat * nat) :=
  match a with
  | [] => []
  | row :: a' =>
      map (fun j => (i0, j)) (row_matches v row 0)
        ++ np_where_eq_from a' v (S i0)
  end.

Definition np_where_eq (a : array2) (v : Q) : list nat * list nat :=
  let ms := np_where_eq_from a v 0 in (map fst ms, map snd ms).

(** [xs[0]] *)
Definition first_elt (xs : list nat) : res nat :=
  match xs with
  | [] => Raise IndexError
  | x :: _ => Ok x
  end.

(** [np.zeros((n, m))] *)
Definition np_zeros (n m : nat) : array2 := repeat (repeat 0 m) n.

(** The array [a], of [m] columns, inside a margin of [k] zeros. *)
Definition padded (a : array2) (m k : nat) : array2 :=
  let blank := repeat (repeat 0 (k + m + k)) k in
  blank ++ map (fun row => repeat 0 k ++ row ++ repeat 0 k) a ++ blank.

(** [np.pad(a, pad_width=((p, p), (p, p)), mode="constant")]: [p] rows and
    columns of zeros on every side; a negative width is a [ValueError]. *)
Definition np_pad (a : array2) (p : Z) : res array2 :=
  if (p <? 0)%Z then Raise ValueError
  else Ok (padded a (snd (shape a)) (Z.to_nat p)).

(** ** Slices *)

(** [slice(start, stop)] *)
Record pyslice : Type := Slice { start : Z; stop : Z }.

(** One bound of a slice on an axis of length [n]: a negative bound counts
    from the end, and the outcome is clipped to [0..n]. *)
Definition clip_index (k : Z) (n : nat) : nat :=
  let n' := Z.of_nat n in
  if (k <? 0)%Z then Z.to_nat (Z.max 0 (k + n'))
  else Z.to_nat (Z.min k n').

(** A window: rows [r0 .. r1 - 1] and columns [c0 .. c1 - 1]. *)
Record window : Type := Window { r0 : nat; r1 : nat; c0 : nat; c1 : nat }.

(** The index ranges that a pair of slices selects in an array. *)
Definition resolve (a : array2) (s : pyslice * pyslice) : window :=
  let '(n, m) := shape a in
  {| r0 := clip_index (start (fst s)) n; r1 := clip_index (stop (fst s)) n;
     c0 := clip_index (start (snd s)) m; c1 := clip_index (stop (snd s)) m |}.

Definition window_shape (w : window) : nat * nat :=
  (r1 w - r0 w, c1 w - c0 w)%nat.

Definition in_window (w : window) (i j : nat) : bool :=
  ((r0 w <=? i) && (i <? r1 w) && (c0 w <=? j) && (j <? c1 w))%nat.

Definition cut {A : Type} (lo hi : nat) (l : list A) : list A :=
  firstn (hi - lo) (skipn lo l).

(** [a[s]] for a pair of slices. *)
Definition getitem2 (a : array2) (s : pyslice * pyslice) : array2 :=
  let w := resolve a s in
  map (cut (c0 w) (c1 w)) (cut (r0 w) (r1 w) a).

Fixpoint mapi_from {A B : Type} (k : nat) (f : nat -> A -> B) (l : list A)
  : list B :=
  match l with
  | [] => []
  | x :: l' => f k x :: mapi_from (S k) f l'
  end.

Definition mapi {A B : Type} (f : nat -> A -> B) (l : list A) : list B :=
  mapi_from 0 f l.

(** Combine the pixels of [a] inside the window [w] with the pixels of [v]
    (pixel [(i, j)] of [a] meets pixel [(i - r0, j - c0)] of [v]); the pixels
    of [a] outside [w] stay. *)
Definition update_window (f : Q -> Q -> Q) (a : array2) (w : window)
    (v : array2) : array2 :=
  mapi (fun i row =>
    mapi (fun j x =>
      if in_window w i j then f x (get2 v (i - r0 w) (j - c0 w)) else x)
      row) a.

(** The assignments into a slice used by the source, [a[s] = v] and
    [a[s] -= v]: the value must have the shape of the selected region, else
    NumPy raises [ValueError] (a shape that does not broadcast). *)
Definition with_slice (f : Q -> Q -> Q) (a : array2) (s : pyslice * pyslice)
    (v : array2) : res array2 :=
  let w := resolve a s in
  let '(vn, vm) := shape v in
  if ((vn =? fst (window_shape w)) && (vm =? snd (window_shape w)))%nat
  then Ok (update_window f a w v)
  else Raise ValueError.

Definition setitem2 := with_slice (fun _ y => y).
Definition isub2 := with_slice (fun x y => x - y).

(** ** Grids *)

(** [np.linspace(start, stop, num)]: [num] evenly spaced samples, the last
    one being [stop]. *)
Definition np_linspace (lo hi : Q) (num : nat) : array1 :=
  match num with
  | O => []
  | S O => [lo]
  | S k => map (fun i => lo + of_nat i * ((hi - lo) / of_nat k)) (seq 0 num)
  end.

(** [np.meshgrid(x, y)]: two arrays of [len(y)] rows and [len(x)] columns,
    [xx[i][j] = x[j]] and [yy[i][j] = y[i]]. *)
Definition np_meshgrid (x y : array1) : array2 * array2 :=
  (map (fun _ => x) y, map (fun yi => map (fun _ => yi) x) y).

(** [np.diagonal(m)]; the covariance of [leastsq] is [None] when the
    problem is singular, and [np.diagonal(None)] raises [ValueError]. *)
Definition np_diagonal (m : option array2) : res array1 :=
  match m with
  | None => Raise ValueError
  | Some rows =>
      Ok (map (fun i => get2 rows i i)
            (seq 0 (Nat.min (length rows) (length (hd [] rows)))))
  end.

(** ** Fit parameters and catalogue entries *)

(** [(amp, mean_x, mean_y, sigma_x, sigma_y)] *)
Definition params : Type := (Q * Q * Q * Q * Q)%type.

(** [(amp, pos_x, pos_y, size_x, size_y)] *)
Definition source : Type := (Q * Q * Q * Q * Q)%type.

Definition source_amp (s : source) : Q :=
  let '(a, _, _, _, _) := s in a.

Definition fitted_amp (p : params) : Q :=
  let '(a, _, _, _, _) := p in a.

(** What [optimize.leastsq(..., full_output=1)] hands back, as far as
    [fit_gaussian] looks at it: the solution, the covariance ([None] when
    singular) and the integer flag [ier] (bound to [sucess] and not read). *)
Definition leastsq_out : Type := (params * option array2 * Z)%type.

(** The residual function and its extra arguments, as passed to [leastsq]. *)
Definition leastsq_t : Type :=
  (params -> array1 -> array1 -> array1 -> array1) ->
  params -> array1 * array1 * array1 -> res leastsq_out.

(** The variables of [source_finder] that the loop mutates. *)
Record state : Type := State {
  residual : array2;
  model : array2;
  catalog : list source
}.

(** The variables of [source_finder] that the loop only reads. *)
Record env : Type := Env {
  peak_sigma : Q;
  boundary_sigma : Q;
  width : Z;
  pad : Z;
  psf_pix : Q;
  FWHM : Q
}.

(** One pass through the body of [while True]. *)
Inductive outcome : Type :=
| Break
| Continue (st : state)
| Raised (e : exn).

(** The library routines that the notebook calls and does not define. *)
Class Numerics : Type := {
  (** [np.exp], [np.sqrt] (also standing for [** 0.5]) and [np.log] *)
  np_exp : Q -> Q;
  np_sqrt : Q -> Q;
  np_log : Q -> Q;
  (** [scipy.optimize.leastsq] called with [full_output=1]; it may raise
      (for instance [TypeError] with fewer residuals than parameters). *)
  leastsq : leastsq_t
}.

(** ** The notebook's functions *)

Section SourceFinder.

Context {N : Numerics}.

(** [gauss2D(x, y, amp, mean_x, mean_y, sigma_x, sigma_y)] at one point. *)
Definition gauss2D (x y : Q) (p : params) : Q :=
  let '(amp, mean_x, mean_y, sigma_x, sigma_y) := p in
  let gx := - ((x - mean_x) ^ 2) / (2 * sigma_x ^ 2) in
  let gy := - ((y - mean_y) ^ 2) / (2 * sigma_y ^ 2) in
  amp * np_exp (gx + gy).

(** [gauss2D] on two 1D arrays, and on two 2D arrays, element by element. *)
Definition gauss2D_1d (xs ys : array1) (p : params) : array1 :=
  map (fun xy => gauss2D (fst xy) (snd xy) p) (combine xs ys).

Definition gauss2D_2d (xx yy : array2) (p : params) : array2 :=
  map (fun r => gauss2D_1d (fst r) (snd r) p) (combine xx yy).

(** [err(p, xx, yy, data)]; the three arrays arrive flattened already. *)
Definition err (p : params) (xx yy data : array1) : array1 :=
  map (fun gd => fst gd - snd gd) (combine (gauss2D_1d xx yy p) data).

(** The coordinate arrays [xx, yy] that [fit_gaussian] builds for a data
    set of shape [(npix_x, npix_y)]. *)
Definition fit_mesh (npix_x npix_y : nat) : array2 * array2 :=
  let x := np_linspace 0 (of_nat npix_x) npix_x in
  let y := np_linspace 0 (of_nat npix_y) npix_y in
  np_meshgrid x y.

(** [fit_gaussian], first half: the starting point, the mesh and the call
    of [optimize.leastsq].  The divisions [width/2] are integer divisions
    (Python 2, [width] being an [int]). *)
Definition leastsq_call (data : array2) (psf : Q) : res leastsq_out :=
  let width := fst (shape data) in
  let mean_x := of_nat (width / 2) in
  let mean_y := of_nat (width / 2) in
  amp <- np_max data ;;
  let sigma_x := psf in
  let sigma_y := psf in
  let params0 := (amp, mean_x, mean_y, sigma_x, sigma_y) in
  let '(npix_x, npix_y) := shape data in
  let '(xx, yy) := fit_mesh npix_x npix_y in
  leastsq err params0 (flatten xx, flatten yy, flatten data).

(** [fit_gaussian(data, psf_pix)] *)
Definition fit_gaussian (data : array2) (psf : Q)
  : res (params * array1 * array2) :=
  out <- leastsq_call data psf ;;
  let '(p, pcov, _) := out in
  d <- np_diagonal pcov ;;
  let perr := map (fun v => np_sqrt (Qabs v)) d in
  let '(xx, yy) := fit_mesh (fst (shape data)) (snd (shape data)) in
  let model := gauss2D_2d xx yy p in
  Ok (p, perr, model).

(** [subim_slice] for the peak pixel [(xpix, ypix)]; [width/2] is the
    integer division of Python 2. *)
Definition subim_slice (e : env) (xpix ypix : nat) : pyslice * pyslice :=
  let h := (width e / 2)%Z in
  (Slice (Z.of_nat xpix - h) (Z.of_nat xpix + h),
   Slice (Z.of_nat ypix - h) (Z.of_nat ypix + h)).

(** [subimage * mask] with [mask = subimage > boundary_sigma]. *)
Definition masked (e : env) (subimage : array2) : array2 :=
  map (map (fun v => v * (if Qltb (boundary_sigma e) v then 1 else 0)))
    subimage.

(** The first pixel, in row-major order, that holds [max_pix]. *)
Definition locate (st : state) (max_pix : Q) : res (nat * nat) :=
  let '(xs, ys) := np_where_eq (residual st) max_pix in
  xpix <- first_elt xs ;;
  ypix <- first_elt ys ;;
  Ok (xpix, ypix).

(** The data handed to [fit_gaussian] for the peak pixel [(xpix, ypix)]. *)
Definition fit_data (e : env) (st : state) (xpix ypix : nat) : array2 :=
  masked e (getitem2 (residual st) (subim_slice e xpix ypix)).

(** The catalogue entry made of a fit at the peak pixel [(xpix, ypix)]. *)
Definition make_source (e : env) (xpix ypix : nat) (p : params) : source :=
  let '(amp, mean_x, mean_y, sigma_x, sigma_y) := p in
  let half := inject_Z (width e / 2) in
  let pos_x := of_nat xpix + (half - mean_x) - inject_Z (pad e) in
  let pos_y := of_nat ypix + (half - mean_y) - inject_Z (pad e) in
  let size_x := FWHM e * sigma_x in
  let size_y := FWHM e * sigma_y in
  (amp, pos_x, pos_y, size_x, size_y).

(** [amp_err, mean_x_err, mean_y_err, sigma_x_err, sigma_y_err = perr] *)
Definition unpack5 (perr : array1) : res (Q * Q * Q * Q * Q) :=
  match perr with
  | [a; b; c; d; f] => Ok (a, b, c, d, f)
  | _ => Raise ValueError
  end.

(** The body of the loop after the threshold test has let the peak pass. *)
Definition detect (e : env) (st : state) (max_pix : Q) : res state :=
  xy <- locate st max_pix ;;
  let '(xpix, ypix) := xy in
  let sl := subim_slice e xpix ypix in
  fit <- fit_gaussian (fit_data e st xpix ypix) (psf_pix e) ;;
  let '(p, perr, _model) := fit in
  _ <- unpack5 perr ;;
  model' <- setitem2 (model st) sl _model ;;
  let catalog' := catalog st ++ [make_source e xpix ypix p] in
  residual' <- isub2 (residual st) sl _model ;;
  Ok (State residual' model' catalog').

(** One pass of [while True]: [max_pix < peak_sigma] leaves the loop. *)
Definition iteration (e : env) (st : state) : outcome :=
  match np_max (residual st) with
  | Raise x => Raised x
  | Ok max_pix =>
      if Qltb max_pix (peak_sigma e) then Break
      else match detect e st max_pix with
           | Ok st' => Continue st'
           | Raise x => Raised x
           end
  end.

(** [while True: ...] with fuel: [None] when the fuel is used up. *)
Fixpoint loop (fuel : nat) (e : env) (st : state) : option (res state) :=
  match fuel with
  | O => None
  | S fuel' =>
      match iteration e st with
      | Break => Some (Ok st)
      | Raised x => Some (Raise x)
      | Continue st' => loop fuel' e st'
      end
  end.

(** The state after [n] completed passes, when there are that many. *)
Fixpoint iterate (n : nat) (e : env) (st : state) : option state :=
  match n with
  | O => Some st
  | S n' =>
      match iteration e st with
      | Continue st' => iterate n' e st'
      | _ => None
      end
  end.

(** The window that a pass starting in [st] works on. *)
Definition window_of (e : env) (st : state) : option window :=
  match np_max (residual st) with
  | Raise _ => None
  | Ok max_pix =>
      match locate st max_pix with
      | Ok (xpix, ypix) =>
          Some (resolve (residual st) (subim_slice e xpix ypix))
      | Raise _ => None
      end
  end.

(** The windows of the completed passes of a run, in detection order. *)
Fixpoint windows (fuel : nat) (e : env) (st : state) : list window :=
  match fuel with
  | O => []
  | S fuel' =>
      match iteration e st, window_of e st with
      | Continue st', Some w => w :: windows fuel' e st'
      | _, _ => []
      end
  end.

(** The read-only variables set up by [source_finder] before the loop. *)
Definition make_env (data : array2) (peak boundary : Q) (w : Z) (psf : Q)
  : env :=
  let sigma_noise := mad_mean data in
  {| peak_sigma := sigma_noise * peak;
     boundary_sigma := sigma_noise * boundary;
     width := w;
     pad := (w * 2)%Z;
     psf_pix := psf;
     FWHM := 2 * np_sqrt (2 * np_log 2) |}.

(** [residual], [model] and [catalog] on entry to the loop. *)
Definition init_state (data : array2) (w : Z) : res state :=
  residual0 <- np_pad data (w * 2)%Z ;;
  let '(n, m) := shape residual0 in
  Ok (State residual0 (np_zeros n m) []).

(** [imslice] *)
Definition imslice (e : env) : pyslice * pyslice :=
  (Slice (pad e) (- pad e), Slice (pad e) (- pad e)).

(** [source_finder(data, peak, boundary, width, psf_pix)] *)
Definition source_finder (fuel : nat) (data : array2) (peak boundary : Q)
    (w : Z) (psf : Q) : option (res (list source * array2 * array2 * Q)) :=
  let e := make_env data peak boundary w psf in
  match init_state data w with
  | Raise x => Some (Raise x)
  | Ok st0 =>
      match loop fuel e st0 with
      | None => None
      | Some (Raise x) => Some (Raise x)
      | Some (Ok st) =>
          Some (Ok (catalog st,
                    getitem2 (model st) (imslice e),
                    getitem2 (residual st) (imslice e),
                    mad_mean data))
      end
  end.

(** The windows of the completed passes of a call of [source_finder]. *)
Definition run_windows (fuel : nat) (data : array2) (peak boundary : Q)
    (w : Z) (psf : Q) : list window :=
  match init_state data w with
  | Ok st0 => windows fuel (make_env data peak boundary w psf) st0
  | Raise _ => []
  end.

End SourceFinder.

(** ** Properties of catalogues and of window lists *)

(** Amplitudes that never go up along the catalogue. *)
Fixpoint non_increasing (l : list Q) : Prop :=
  match l with
  | [] => True
  | x :: l' =>
      match l' with
      | [] => True
      | y :: _ => y <= x
      end /\ non_increasing l'
  end.




(** ** A concrete numerical environment, to run the functions on examples *)

Module Sample.

(** Rational stand-ins for [np.exp], [np.sqrt] and [np.log]:
    [1 / (1 - x + x^2/2)] up to zero and [1 + x + x^2/2] above, three
    Newton steps for the square root, and three terms of the [artanh]
    series for the logarithm; the values are returned in lowest terms. *)
Definition exp_q (x : Q) : Q :=
  let t := Qred x in
  Qred (if Qle_bool t 0 then 1 / (1 - t + t * t / 2) else 1 + t + t * t / 2).

Definition sqrt_q (x : Q) : Q :=
  let step y := Qred ((y + x / y) / 2) in
  step (step (step 1)).

Definition log_q (x : Q) : Q :=
  let z := Qred ((x - 1) / (x + 1)) in
  Qred (2 * (z + z ^ 3 / 3 + z ^ 5 / 5)).

Definition dot (u v : array1) : Q :=
  np_sum (map (fun p => fst p * snd p) (combine u v)).

(** Position of the first largest element of a list. *)
Fixpoint argmax_from (l : array1) (i best : nat) (top : Q) : nat :=
  match l with
  | [] => best
  | x :: l' =>
      if Qltb top x then argmax_from l' (S i) i x
      else argmax_from l' (S i) best top
  end.

Definition argmax (l : array1) : nat :=
  match l with
  | [] => O
  | x :: l' => argmax_from l' 1 0 x
  end.

Definition identity5 : array2 :=
  map (fun i => map (fun j => if Nat.eqb i j then 1 else 0) (seq 0 5))
    (seq 0 5).

(** A least-squares routine to run examples with; it is not [leastsq], and
    nothing is claimed of [leastsq] through it: the theorems hold for every
    routine, and this one shows that their hypotheses can be met (on a
    window with one or two bright pixels [leastsq] need not come back with
    a covariance as this routine does).  It keeps the starting
    widths, puts the centre on the brightest sample and solves the
    remaining linear least-squares problem for the amplitude,
    [amp = sum(data * g) / sum(g * g)] with [g] the profile of amplitude
    one (obtained from the residual function).  It refuses fewer residuals
    than parameters with [TypeError], as [leastsq] does.  When the data are
    zero throughout it returns its starting point, whose amplitude is the
    maximum of the data, zero, and no covariance ([None]): the fit is the
    zero profile, whose curvature matrix is singular. *)
Definition leastsq_amp : leastsq_t :=
  fun func x0 args =>
    let '(xx, yy, data) := args in
    let '(_, _, _, sx, sy) := x0 in
    if (length data <? 5)%nat then Raise TypeError
    else
      let k := argmax data in
      let cx := Qred (nth k xx 0) in
      let cy := Qred (nth k yy 0) in
      let g :=
        map (fun p => fst p + snd p)
          (combine (func (1, cx, cy, sx, sy) xx yy data) data) in
      if forallb (fun d => Qeq_bool d 0) data
      then Ok (x0, None, 4%Z)
      else Ok ((Qred (dot data g / dot g g), cx, cy, sx, sy),
               Some identity5, 1%Z).

Definition numerics : Numerics :=
  {| np_exp := exp_q; np_sqrt := sqrt_q; np_log := log_q;
     leastsq := leastsq_amp |}.

(** [source_finder] in this environment. *)
Definition run := @source_finder numerics.

Definition run_catalog (fuel : nat) (data : array2) (peak boundary : Q)
    (w : Z) (psf : Q) : option (list source) :=
  match run fuel data peak boundary w psf with
  | Some (Ok (c, _, _, _)) => Some c
  | _ => None
  end.

Definition run_entries (fuel : nat) (data : array2) (peak boundary : Q)
    (w : Z) (psf : Q) : list source :=
  match run fuel data peak boundary w psf with
  | Some (Ok (c, _, _, _)) => c
  | _ => []
  end.

Definition run_model (fuel : nat) (data : array2) (peak boundary : Q)
    (w : Z) (psf : Q) : array2 :=
  match run fuel data peak boundary w psf with
  | Some (Ok (_, mo, _, _)) => mo
  | _ => []
  end.

Definition run_residual (fuel : nat) (data : array2) (peak boundary : Q)
    (w : Z) (psf : Q) : array2 :=
  match run fuel data peak boundary w psf with
  | Some (Ok (_, _, r, _)) => r
  | _ => []
  end.

(** The state on entry to the loop, and the state after one pass. *)
Definition start (data : array2) (w : Z) : state :=
  match init_state data w with
  | Ok st => st
  | Raise _ => State [] [] []
  end.

Definition next (e : env) (st : state) : state :=
  match @iteration numerics e st with
  | Continue st' => st'
  | _ => st
  end.

(** Whether a pass has left the loop, and whether it has completed. *)
Definition leaves_loop (o : outcome) : bool :=
  match o with
  | Break => true
  | _ => false
  end.

Definition completes (o : outcome) : bool :=
  match o with
  | Continue _ => true
  | _ => false
  end.

(** Whether a call has returned, and the noise estimate it has returned. *)
Definition returns (fuel : nat) (data : array2) (peak boundary : Q)
    (w : Z) (psf : Q) : bool :=
  match run fuel data peak boundary w psf with
  | Some (Ok _) => true
  | _ => false
  end.

Definition run_noise (fuel : nat) (data : array2) (peak boundary : Q)
    (w : Z) (psf : Q) : Q :=
  match run fuel data peak boundary w psf with
  | Some (Ok (_, _, _, s)) => s
  | _ => 0
  end.

(** The fit of the window around the pixel [(xpix, ypix)]. *)
Definition fit_of (e : env) (st : state) (xpix ypix : nat)
  : params * array1 * array2 :=
  match @fit_gaussian numerics (fit_data e st xpix ypix) (psf_pix e) with
  | Ok f => f
  | Raise _ => ((0, 0, 0, 0, 0), [], [])
  end.

Definition fitted (e : env) (st : state) (xpix ypix : nat) : bool :=
  match @fit_gaussian numerics (fit_data e st xpix ypix) (psf_pix e) with
  | Ok _ => true
  | Raise _ => false
  end.

(** Amplitudes that never go up, as a test. *)
Fixpoint non_increasingb (l : list Q) : bool :=
  match l with
  | [] => true
  | x :: l' =>
      match l' with
      | [] => true
      | y :: _ => Qle_bool y x
      end && non_increasingb l'
  end.

(** The starting width handed to the fit in the examples. *)
Definition psf0 : Q := 2 # 3.

(** Two pixels, the brighter one at twice the noise estimate. *)
Definition image1 : array2 := [[0; 2]].

(** A lone bright pixel, and further right a pixel, a little fainter, with
    a neighbour that is nearly as bright. *)
Definition image2 : array2 := [[301 # 100; 0; 0; 0; 0; 0; 3; 299 # 100]].

End Sample.

(** ** A second numerical environment *)

Module Stalled.

(** A least-squares routine that hands back its starting point together
    with a covariance, as a routine does that finds nothing to improve. *)
Definition leastsq_start : leastsq_t :=
  fun _ x0 _ => Ok (x0, Some Sample.identity5, 1%Z).

Definition numerics : Numerics :=
  {| np_exp := Sample.exp_q; np_sqrt := Sample.sqrt_q;
     np_log := Sample.log_q; leastsq := leastsq_start |}.

Definition next (e : env) (st : state) : state :=
  match @iteration numerics e st with
  | Continue st' => st'
  | _ => st
  end.

(** The fit of a data set in this environment. *)
Definition fit_of (data : array2) (psf : Q) : params * array1 * array2 :=
  match @fit_gaussian numerics data psf with
  | Ok f => f
  | Raise _ => ((0, 0, 0, 0, 0), [], [])
  end.

Definition fitted (data : array2) (psf : Q) : bool :=
  match @fit_gaussian numerics data psf with
  | Ok _ => true
  | Raise _ => false
  end.

(** Two rows of three pixels. *)
Definition image3 : array2 := [[0; 1; 0]; [1; 4; 1]].

End Stalled.

(** ** A numerical environment that recovers two sources *)

Module Blobs.

(** [np.exp] to about twelve digits: the argument is divided by 16, the
    series is summed to the term of degree 12 and the sum is squared four
    times, every product being cut to 40 binary digits. *)
Definition scale : positive := 1099511627776.

Definition fix_q (q : Q) : Q :=
  (Qnum q * Zpos scale / Zpos (Qden q))%Z # scale.

Definition exp_fix (x : Q) : Q :=
  let y := fix_q (x / 16) in
  let t :=
    fold_right (fun k acc => 1 + fix_q (y / inject_Z k * acc)) 1
      [1; 2; 3; 4; 5; 6; 7; 8; 9; 10; 11; 12]%Z in
  let sq z := fix_q (z * z) in
  sq (sq (sq (sq t))).

(** The sum of the squares of a residual vector, every residual being cut
    to 40 binary digits first. *)
Definition cost (r : array1) : Q :=
  fold_right Z.add 0%Z (map (fun v => (Qnum (fix_q v) * Qnum (fix_q v))%Z) r)
    # (scale * scale).

(** A least-squares routine that searches a finite set of parameter
    vectors: it returns the vector of the set, or the starting point, at
    which the sum of squares of the residual function is smallest.  Like
    [leastsq] it refuses fewer residuals than parameters, and it comes back
    without covariance from data that are zero throughout. *)
Definition leastsq_grid (grid : list params) : leastsq_t :=
  fun func x0 args =>
    let '(xx, yy, data) := args in
    if (length data <? 5)%nat then Raise TypeError
    else if forallb (fun d => Qeq_bool d 0) data then Ok (x0, None, 4%Z)
    else
      let better (best : params * Q) (q : params) :=
        let c := cost (func q xx yy data) in
        if Qltb c (snd best) then (q, c) else best in
      Ok (fst (fold_left better grid (x0, cost (func x0 xx yy data))),
          Some Sample.identity5, 1%Z).

(** Two Gaussians of width 1 on the grid of a window of side 4: the first
    has amplitude 3000000 and sits on the grid point 8/3, the second has
    amplitude 3600000 and sits at 2.2, between the grid points 4/3 and
    8/3. *)
Definition blob_a : params := (3000000, 8 # 3, 8 # 3, 1, 1).
Definition blob_b : params := (3600000, 11 # 5, 11 # 5, 1, 1).

Definition numerics : Numerics :=
  {| np_exp := exp_fix; np_sqrt := Sample.sqrt_q; np_log := Sample.log_q;
     leastsq := leastsq_grid [blob_a; blob_b] |}.

(** The two Gaussians sampled on that grid and rounded to integers. *)
Definition patch_a : array2 :=
  map (map inject_Z)
    [[2448; 35231; 85697; 35231];
     [35231; 507040; 1233337; 507040];
     [85697; 1233337; 3000000; 1233337];
     [35231; 507040; 1233337; 507040]]%Z.

Definition patch_b : array2 :=
  map (map inject_Z)
    [[28465; 219891; 287091; 63351];
     [219891; 1698631; 2217742; 489377];
     [287091; 2217742; 2895495; 638933];
     [63351; 489377; 638933; 140990]]%Z.

(** An image of four rows and eight columns: the first Gaussian in columns
    0 to 3, the second in columns 4 to 7. *)
Definition image : array2 :=
  map (fun rows => fst rows ++ snd rows) (combine patch_a patch_b).

(** The sum of squares that a parameter vector leaves on a patch. *)
Definition misfit (p : params) (patch : array2) : Q :=
  cost (@err numerics p (flatten (fst (fit_mesh 4 4)))
          (flatten (snd (fit_mesh 4 4))) (flatten patch)).

(** The call [source_finder(image, 2, 0, 4, 1)] in this environment, and
    the amplitudes of its catalogue. *)
Definition env0 : env := @make_env numerics image 2 0 4 1.

Definition next (e : env) (st : state) : state :=
  match @iteration numerics e st with
  | Continue st' => st'
  | _ => st
  end.

Definition amplitudes (fuel : nat) : option (list Q) :=
  match @source_finder numerics fuel image 2 0 4 1 with
  | Some (Ok (c, _, _, _)) => Some (map source_amp c)
  | _ => None
  end.

End Blobs.

(** ** The update statements of the loop body on binary64 numbers *)

Module Binary64.

Definition array2 : Type := list (list float).

Definition get2 (a : array2) (i j : nat) : float :=
  nth j (nth i a []) 0%float.

(** As [update_window] above, on arrays of binary64 numbers. *)
Definition update_window (f : float -> float -> float) (a : array2)
    (w : window) (v : array2) : array2 :=
  mapi (fun i row =>
    mapi (fun j x =>
      if in_window w i j then f x (get2 v (i - r0 w) (j - c0 w)) else x)
      row) a.

(** [model[subim_slice] = _model] and [residual[subim_slice] -= _model] for
    a value that has the shape of the window. *)
Definition setitem2 : array2 -> window -> array2 -> array2 :=
  update_window (fun _ y => y).

Definition isub2 : array2 -> window -> array2 -> array2 :=
  update_window PrimFloat.sub.

(** A residual window with a pixel at 0.1, and a fitted model image with
    the value 1 at that pixel. *)
Definition tenth : float := 0x1.999999999999ap-4%float.

Definition residual0 : array2 := [[tenth; 0%float]; [0%float; 0%float]].
Definition fitted : array2 := [[1%float; 0%float]; [0%float; 0%float]].

End Binary64.

(** ** Comparisons, sums and means *)

Lemma Qltb_lt (x y : Q) : Qltb x y = true <-> x < y.
Proof.
  unfold Qltb. rewrite negb_true_iff, <- not_true_iff_false, Qle_bool_iff.
  split; [apply Qnot_le_lt | apply Qlt_not_le].
Qed.

Lemma Qltb_ge (x y : Q) : Qltb x y = false <-> y <= x.
Proof.
  unfold Qltb. rewrite negb_false_iff. apply Qle_bool_iff.
Qed.

Lemma flatten_map (f : Q -> Q) (a : array2) :
  flatten (map (map f) a) = map f (flatten a).
Proof.
  unfold flatten. symmetry. apply concat_map.
Qed.

Lemma size_map (f : Q -> Q) (a : array2) : size (map (map f) a) = size a.
Proof.
  unfold size. rewrite flatten_map. apply length_map.
Qed.

Lemma np_sum_nonneg (l : array1) :
  Forall (fun x => 0 <= x) l -> 0 <= np_sum l.
Proof.
  induction 1 as [|x l Hx _ IH]; simpl.
  - apply Qle_refl.
  - change 0 with (0 + 0) at 1. now apply Qplus_le_compat.
Qed.

Lemma of_nat_nonneg (n : nat) : 0 <= of_nat n.
Proof.
  unfold of_nat. change 0 with (inject_Z 0). rewrite <- Zle_Qle. lia.
Qed.

Lemma of_nat_pos (n : nat) : (0 < n)%nat -> 0 < of_nat n.
Proof.
  intros H. unfold of_nat. change 0 with (inject_Z 0). rewrite <- Zlt_Qlt. lia.
Qed.

Lemma Qdiv_nonneg (x y : Q) : 0 <= x -> 0 <= y -> 0 <= x / y.
Proof.
  intros Hx Hy. unfold Qdiv. apply Qmult_le_0_compat; [assumption|].
  now apply Qinv_le_0_compat.
Qed.

Lemma mad_mean_unfold (a : array2) :
  mad_mean a = spec_estimateNoise (flatten a).
Proof.
  unfold mad_mean, spec_estimateNoise, np_abs, sub_scalar, np_mean.
  rewrite !size_map, !flatten_map, map_map. reflexivity.
Qed.

Lemma mad_mean_nonneg (a : array2) : 0 <= mad_mean a.
Proof.
  rewrite mad_mean_unfold. unfold spec_estimateNoise.
  apply Qdiv_nonneg; [|apply of_nat_nonneg].
  apply np_sum_nonneg, Forall_forall. intros x Hx.
  apply in_map_iff in Hx as (y & <- & _). apply Qabs_nonneg.
Qed.

(** A list whose elements all equal [c]. *)
Lemma np_sum_const (c : Q) (l : array1) :
  Forall (fun x => x == c) l -> np_sum l == of_nat (length l) * c.
Proof.
  induction 1 as [|x l Hx _ IH].
  - simpl. unfold of_nat. simpl. ring.
  - cbn [np_sum fold_right length]. fold (np_sum l). rewrite IH, Hx.
    unfold of_nat. rewrite Nat2Z.inj_succ, <- Z.add_1_r, inject_Z_plus.
    ring.
Qed.

Lemma mad_mean_const (c : Q) (a : array2) :
  (0 < size a)%nat ->
  Forall (fun x => x == c) (flatten a) ->
  mad_mean a == 0.
Proof.
  intros Hn Hc. rewrite mad_mean_unfold. unfold spec_estimateNoise.
  fold (size a).
  assert (Hpos : 0 < of_nat (size a)) by now apply of_nat_pos.
  assert (Hmu : np_sum (flatten a) / of_nat (size a) == c).
  { rewrite (np_sum_const c) by assumption. fold (size a). field.
    intros E. rewrite E in Hpos. now apply Qlt_irrefl in Hpos. }
  rewrite (np_sum_const 0).
  - rewrite length_map. fold (size a). field.
    intros E. rewrite E in Hpos. now apply Qlt_irrefl in Hpos.
  - apply Forall_forall. intros x Hx.
    apply in_map_iff in Hx as (y & <- & Hy).
    rewrite Forall_forall in Hc. rewrite (Hc y Hy), Hmu.
    setoid_replace (c - c) with 0 by ring. reflexivity.
Qed.

(** ** The maximum of an array *)

Lemma fold_left_Qmax_ge (l : array1) (x : Q) :
  x <= fold_left Qmax l x /\ Forall (fun y => y <= fold_left Qmax l x) l.
Proof.
  revert x. induction l as [|y l IH]; intros x; simpl.
  - split; [apply Qle_refl | constructor].
  - destruct (IH (Qmax x y)) as [H1 H2]. split; [|constructor].
    + eapply Qle_trans; [apply Q.le_max_l | exact H1].
    + eapply Qle_trans; [apply Q.le_max_r | exact H1].
    + exact H2.
Qed.

Lemma np_max_upper (a : array2) (m : Q) :
  np_max a = Ok m -> Forall (fun y => y <= m) (flatten a).
Proof.
  unfold np_max. destruct (flatten a) as [|x l]; [discriminate|].
  intros [= <-]. destruct (fold_left_Qmax_ge l x). now constructor.
Qed.

(** ** Indexing *)

Lemma length_mapi_from {A B : Type} (f : nat -> A -> B) (l : list A) k :
  length (mapi_from k f l) = length l.
Proof.
  revert k. induction l; intros k; simpl; [reflexivity | now rewrite IHl].
Qed.

Lemma nth_mapi_from {A B : Type} (f : nat -> A -> B) (l : list A) k i d d' :
  (i < length l)%nat ->
  nth i (mapi_from k f l) d' = f (k + i)%nat (nth i l d).
Proof.
  revert k i. induction l as [|x l IH]; intros k i Hi; simpl in *; [lia|].
  destruct i as [|i].
  - now rewrite Nat.add_0_r.
  - rewrite IH by lia. f_equal. lia.
Qed.

Lemma Forall_mapi_from {A B : Type} (P : A -> Prop) (R : B -> Prop)
    (f : nat -> A -> B) (l : list A) k :
  (forall i x, P x -> R (f i x)) ->
  Forall P l -> Forall R (mapi_from k f l).
Proof.
  intros Hf H. revert k. induction H; intros k; simpl; constructor; auto.
Qed.

Lemma has_shape_row (a : array2) n m i :
  has_shape a n m -> (i < n)%nat -> length (nth i a []) = m.
Proof.
  intros [Hn Hr] Hi. rewrite Forall_forall in Hr. apply Hr, nth_In. lia.
Qed.

Lemma has_shape_shape (a : array2) n m :
  has_shape a n m -> (0 < n)%nat -> shape a = (n, m).
Proof.
  intros [Hn Hr] Hpos. unfold shape. rewrite Hn. f_equal.
  destruct a as [|r a]; simpl in *; [lia|]. now inversion Hr.
Qed.

Lemma has_shape_update_window f a w v n m :
  has_shape a n m -> has_shape (update_window f a w v) n m.
Proof.
  intros [Hn Hr]. unfold update_window, mapi. split.
  - now rewrite length_mapi_from.
  - eapply Forall_mapi_from; [|exact Hr].
    intros i row Hrow. simpl. now rewrite length_mapi_from.
Qed.

Lemma get2_update_window f a w v n m i j :
  has_shape a n m -> (i < n)%nat -> (j < m)%nat ->
  get2 (update_window f a w v) i j =
    if in_window w i j then f (get2 a i j) (get2 v (i - r0 w) (j - c0 w))
    else get2 a i j.
Proof.
  intros Hs Hi Hj. pose proof (has_shape_row a n m i Hs Hi) as Hlen.
  destruct Hs as [Hn _]. unfold get2 at 1, update_window, mapi.
  rewrite (nth_mapi_from _ a 0 i [] []) by lia.
  rewrite (nth_mapi_from _ _ 0 j 0 0) by lia. reflexivity.
Qed.

Lemma has_shape_zeros n m : has_shape (np_zeros n m) n m.
Proof.
  unfold np_zeros. split; [apply repeat_length|].
  apply Forall_forall. intros r Hr. apply repeat_spec in Hr. subst.
  apply repeat_length.
Qed.

Lemma get2_zeros n m i j : get2 (np_zeros n m) i j = 0.
Proof.
  unfold get2, np_zeros.
  destruct (Nat.lt_ge_cases i n) as [Hi|Hi].
  - rewrite (nth_repeat_lt _ _ Hi). apply nth_repeat.
  - rewrite (nth_overflow (repeat (repeat 0 m) n) [])
      by (rewrite repeat_length; lia).
    now destruct j.
Qed.

(** ** Padding and cropping *)

Lemma nth_cut {A : Type} (lo hi i : nat) (l : list A) d :
  (i < hi - lo)%nat -> nth i (cut lo hi l) d = nth (lo + i) l d.
Proof.
  intros Hi. unfold cut. rewrite nth_firstn, nth_skipn.
  apply Nat.ltb_lt in Hi. now rewrite Hi.
Qed.

Lemma In_cut {A : Type} (lo hi : nat) (l : list A) (x : A) :
  In x (cut lo hi l) -> In x l.
Proof.
  unfold cut. intros H.
  assert (H1 : In x (skipn lo l)).
  { rewrite <- (firstn_skipn (hi - lo) (skipn lo l)).
    apply in_or_app. now left. }
  rewrite <- (firstn_skipn lo l). apply in_or_app. now right.
Qed.

Lemma length_cut {A : Type} (lo hi : nat) (l : list A) :
  (hi <= length l)%nat -> length (cut lo hi l) = (hi - lo)%nat.
Proof.
  intros H. unfold cut. rewrite length_firstn, length_skipn. lia.
Qed.

Section Padding.

Variables (a : array2) (n m k : nat).
Hypothesis Hshape : has_shape a n m.
Hypothesis Hn : (0 < n)%nat.

Lemma np_pad_ok (p : Z) :
  (0 <= p)%Z -> k = Z.to_nat p -> np_pad a p = Ok (padded a m k).
Proof.
  intros Hp ->. unfold np_pad. destruct (Z.ltb_spec p 0) as [H|_]; [lia|].
  rewrite (has_shape_shape a n m Hshape Hn). reflexivity.
Qed.

Lemma has_shape_padded : has_shape (padded a m k) (k + n + k) (k + m + k).
Proof.
  destruct Hshape as [Hlen Hrows]. unfold padded. split.
  - rewrite !length_app, !repeat_length, length_map. lia.
  - rewrite !Forall_app. repeat split.
    + apply Forall_forall. intros r Hr. apply repeat_spec in Hr. subst.
      apply repeat_length.
    + apply Forall_map. eapply Forall_impl; [|exact Hrows].
      intros r Hr. cbv beta. rewrite !length_app, !repeat_length, Hr. lia.
    + apply Forall_forall. intros r Hr. apply repeat_spec in Hr. subst.
      apply repeat_length.
Qed.

Lemma get2_padded i j :
  (i < n)%nat -> (j < m)%nat ->
  get2 (padded a m k) (k + i) (k + j) = get2 a i j.
Proof.
  intros Hi Hj. pose proof (has_shape_row a n m i Hshape Hi) as Hrow.
  destruct Hshape as [Hlen _]. unfold get2, padded.
  set (blank := repeat (repeat 0 (k + m + k)) k).
  assert (Hb : length blank = k) by apply repeat_length.
  replace (k + i)%nat with (length blank + i)%nat by lia.
  rewrite app_nth2_plus, app_nth1 by (rewrite length_map; lia).
  rewrite (nth_indep _ [] (repeat 0 k ++ [] ++ repeat 0 k))
    by (rewrite length_map; lia).
  rewrite (map_nth (fun row => repeat 0 k ++ row ++ repeat 0 k)).
  assert (Hz : length (repeat 0 k) = k) by apply repeat_length.
  replace (k + j)%nat with (length (repeat 0%Q k) + j)%nat
    by (rewrite Hz; lia).
  rewrite app_nth2_plus. now rewrite app_nth1 by lia.
Qed.

(** The padded array holds a zero as soon as the margin is not empty. *)
Lemma padded_has_zero : (0 < k)%nat -> In 0 (flatten (padded a m k)).
Proof.
  intros Hk. unfold flatten, padded. apply in_concat.
  exists (repeat 0 (k + m + k)). split.
  - apply in_or_app. left. destruct k; [lia | now left].
  - destruct k; [lia | now left].
Qed.

End Padding.

Lemma clip_index_nonneg (k : Z) (n : nat) :
  (0 <= k <= Z.of_nat n)%Z -> clip_index k n = Z.to_nat k.
Proof.
  intros H. unfold clip_index. destruct (Z.ltb_spec k 0); [lia|].
  f_equal. lia.
Qed.

Lemma clip_index_neg (k : Z) (n : nat) :
  (0 < k <= Z.of_nat n)%Z -> clip_index (- k) n = (n - Z.to_nat k)%nat.
Proof.
  intros H. unfold clip_index. destruct (Z.ltb_spec (- k) 0); lia.
Qed.

Section Cropping.

Variables (b : array2) (n m k : nat).
Hypothesis Hshape : has_shape b (k + n + k) (k + m + k).
Hypothesis Hk : (0 < k)%nat.

Let s : pyslice * pyslice :=
  (Slice (Z.of_nat k) (- Z.of_nat k), Slice (Z.of_nat k) (- Z.of_nat k)).

Lemma resolve_crop :
  resolve b s = Window k (k + n) k (k + m).
Proof.
  unfold resolve. rewrite (has_shape_shape b _ _ Hshape) by lia.
  unfold s. cbn [fst snd start stop].
  rewrite (clip_index_nonneg _ (k + n + k)) by lia.
  rewrite (clip_index_nonneg _ (k + m + k)) by lia.
  rewrite !clip_index_neg by lia.
  rewrite Nat2Z.id. f_equal; lia.
Qed.

Lemma has_shape_crop : has_shape (getitem2 b s) n m.
Proof.
  unfold getitem2. rewrite resolve_crop. cbn [r0 r1 c0 c1].
  destruct Hshape as [Hlen Hrows]. split.
  - rewrite length_map, length_cut by lia. lia.
  - apply Forall_map. apply Forall_forall. intros r Hr.
    assert (Hin : In r b).
    { eapply In_cut; eauto. }
    rewrite Forall_forall in Hrows.
    rewrite length_cut by (rewrite (Hrows r Hin); lia). lia.
Qed.

Lemma get2_crop i j :
  (i < n)%nat -> (j < m)%nat ->
  get2 (getitem2 b s) i j = get2 b (k + i) (k + j).
Proof.
  intros Hi Hj. unfold getitem2. rewrite resolve_crop. cbn [r0 r1 c0 c1].
  destruct Hshape as [Hlen Hrows]. unfold get2.
  rewrite (nth_indep _ [] (cut k (k + m) []))
    by (rewrite length_map, length_cut; lia).
  rewrite (map_nth (cut k (k + m))).
  rewrite (nth_cut k (k + n) i) by lia.
  now rewrite nth_cut by lia.
Qed.

End Cropping.

(** Two arrays of one shape with the same pixels are the same array. *)
Lemma array2_ext (a b : array2) n m :
  has_shape a n m -> has_shape b n m ->
  (forall i j, (i < n)%nat -> (j < m)%nat -> get2 a i j = get2 b i j) ->
  a = b.
Proof.
  intros Ha Hb Hget.
  apply (nth_ext a b [] []); [destruct Ha, Hb; congruence|].
  intros i Hi. destruct Ha as [Hla Hra] eqn:Ea. rewrite Hla in Hi.
  assert (L1 : length (nth i a []) = m) by (eapply has_shape_row; eauto).
  assert (L2 : length (nth i b []) = m) by (eapply has_shape_row; eauto).
  apply (nth_ext _ _ 0 0); [congruence|].
  intros j Hj. rewrite L1 in Hj. now apply Hget.
Qed.

(** Cropping undoes padding. *)
Lemma crop_padded (a : array2) n m k :
  has_shape a n m -> (0 < n)%nat -> (0 < k)%nat ->
  getitem2 (padded a m k)
    (Slice (Z.of_nat k) (- Z.of_nat k), Slice (Z.of_nat k) (- Z.of_nat k))
  = a.
Proof.
  intros Ha Hn Hk.
  pose proof (has_shape_padded a n m k Ha Hn) as Hp.
  apply (array2_ext _ _ n m).
  - now apply has_shape_crop.
  - assumption.
  - intros i j Hi Hj. rewrite (get2_crop _ n m k) by assumption.
    now apply (get2_padded a n m k).
Qed.

Lemma crop_zeros n m k :
  (0 < k)%nat ->
  getitem2 (np_zeros (k + n + k) (k + m + k))
    (Slice (Z.of_nat k) (- Z.of_nat k), Slice (Z.of_nat k) (- Z.of_nat k))
  = np_zeros n m.
Proof.
  intros Hk. apply (array2_ext _ _ n m).
  - apply has_shape_crop; [apply has_shape_zeros | assumption].
  - apply has_shape_zeros.
  - intros i j Hi Hj.
    rewrite (get2_crop _ n m k) by (try apply has_shape_zeros; assumption).
    now rewrite !get2_zeros.
Qed.

(** ** One pass of the loop *)

Section Facts.

Context {N : Numerics}.

Lemma unpack5_ok (perr : array1) :
  (exists t, unpack5 perr = Ok t) <-> length perr = 5%nat.
Proof.
  split.
  - intros [t H].
    destruct perr as [|a [|b [|c [|d [|f [|g l]]]]]]; simpl in H;
      try discriminate; reflexivity.
  - intros H.
    destruct perr as [|a [|b [|c [|d [|f [|g l]]]]]]; simpl in H;
      try discriminate. simpl. eauto.
Qed.

Lemma with_slice_ok f a sl v a' :
  with_slice f a sl v = Ok a' <->
  shape v = window_shape (resolve a sl) /\
  a' = update_window f a (resolve a sl) v.
Proof.
  unfold with_slice. destruct (shape v) as [vn vm].
  destruct (window_shape (resolve a sl)) as [wn wm]. cbn [fst snd].
  destruct (Nat.eqb_spec vn wn) as [Hn|Hn];
    destruct (Nat.eqb_spec vm wm) as [Hm|Hm]; cbn [andb].
  - subst. split; [intros [= <-]; now split | intros [_ ->]; reflexivity].
  - split; [discriminate | intros [H _]; inversion H; contradiction].
  - split; [discriminate | intros [H _]; inversion H; contradiction].
  - split; [discriminate | intros [H _]; inversion H; contradiction].
Qed.

(** The state a pass leaves behind, given its peak pixel, the fitted
    parameters and the model image of the fit. *)
Lemma detect_ok e st m st' :
  detect e st m = Ok st' <->
  exists xpix ypix p perr mdl,
    locate st m = Ok (xpix, ypix) /\
    fit_gaussian (fit_data e st xpix ypix) (psf_pix e) = Ok (p, perr, mdl) /\
    length perr = 5%nat /\
    shape mdl
      = window_shape (resolve (model st) (subim_slice e xpix ypix)) /\
    shape mdl
      = window_shape (resolve (residual st) (subim_slice e xpix ypix)) /\
    st' =
      State
        (update_window Qminus (residual st)
           (resolve (residual st) (subim_slice e xpix ypix)) mdl)
        (update_window (fun _ y => y) (model st)
           (resolve (model st) (subim_slice e xpix ypix)) mdl)
        (catalog st ++ [make_source e xpix ypix p]).
Proof.
  unfold detect. split.
  - destruct (locate st m) as [[xpix ypix]|x]; [|discriminate].
    cbn [bind].
    destruct (fit_gaussian _ _) as [[[p perr] mdl]|x] eqn:Hfit;
      [|discriminate].
    cbn [bind].
    destruct (unpack5 perr) as [t|x] eqn:Hun; [|discriminate].
    cbn [bind].
    destruct (setitem2 _ _ _) as [model'|x] eqn:Hset; [|discriminate].
    cbn [bind].
    destruct (isub2 _ _ _) as [residual'|x] eqn:Hsub; [|discriminate].
    cbn [bind]. intros [= <-].
    apply with_slice_ok in Hset as [Hs1 ->].
    apply with_slice_ok in Hsub as [Hs2 ->].
    exists xpix, ypix, p, perr, mdl. repeat split; try assumption.
    apply unpack5_ok. eauto.
  - intros (xpix & ypix & p & perr & mdl & Hloc & Hfit & Hlen & Hs1 & Hs2
            & ->).
    rewrite Hloc. cbn [bind]. rewrite Hfit. cbn [bind].
    apply unpack5_ok in Hlen as [t ->]. cbn [bind].
    assert (Hset : setitem2 (model st) (subim_slice e xpix ypix) mdl
                   = Ok (update_window (fun _ y => y) (model st)
                           (resolve (model st) (subim_slice e xpix ypix))
                           mdl))
      by (apply with_slice_ok; now split).
    assert (Hsub : isub2 (residual st) (subim_slice e xpix ypix) mdl
                   = Ok (update_window Qminus (residual st)
                           (resolve (residual st) (subim_slice e xpix ypix))
                           mdl))
      by (apply with_slice_ok; now split).
    rewrite Hset. cbn [bind]. rewrite Hsub. reflexivity.
Qed.

Lemma iteration_break e st :
  iteration e st = Break <->
  exists m, np_max (residual st) = Ok m /\ m < peak_sigma e.
Proof.
  unfold iteration. destruct (np_max (residual st)) as [m|x].
  - destruct (Qltb m (peak_sigma e)) eqn:Hlt.
    + apply Qltb_lt in Hlt. split; eauto.
    + apply Qltb_ge in Hlt. split.
      * destruct (detect e st m); discriminate.
      * intros (m' & [= <-] & H). exfalso. eapply Qlt_not_le; eauto.
  - split; [discriminate | intros (m & H & _); discriminate].
Qed.

Lemma iteration_continue e st st' :
  iteration e st = Continue st' <->
  exists m,
    np_max (residual st) = Ok m /\ peak_sigma e <= m /\
    detect e st m = Ok st'.
Proof.
  unfold iteration. destruct (np_max (residual st)) as [m|x].
  - destruct (Qltb m (peak_sigma e)) eqn:Hlt.
    + apply Qltb_lt in Hlt. split; [discriminate|].
      intros (m' & [= <-] & H & _). exfalso. eapply Qlt_not_le; eauto.
    + apply Qltb_ge in Hlt. split.
      * destruct (detect e st m) as [s|] eqn:Hd; [|discriminate].
        intros [= <-]. exists m. now repeat split.
      * intros (m' & [= <-] & _ & ->). reflexivity.
  - split; [discriminate | intros (m & H & _); discriminate].
Qed.

(** When the peak passes the test, the pass is what [detect] makes it. *)
Lemma iteration_pass e st m :
  np_max (residual st) = Ok m -> peak_sigma e <= m ->
  iteration e st =
    match detect e st m with
    | Ok st' => Continue st'
    | Raise x => Raised x
    end.
Proof.
  intros Hm Hle. unfold iteration. rewrite Hm.
  apply Qltb_ge in Hle. now rewrite Hle.
Qed.

(** ** Runs *)

Lemma loop_iterate n k e st st' :
  iterate n e st = Some st' -> loop (n + k) e st = loop k e st'.
Proof.
  revert st. induction n as [|n IH]; intros st H; simpl in *.
  - now injection H as ->.
  - destruct (iteration e st) as [| s |]; try discriminate. now apply IH.
Qed.

Lemma loop_ok_iterate fuel e st st' :
  loop fuel e st = Some (Ok st') ->
  exists n, (n < fuel)%nat /\ iterate n e st = Some st' /\
            iteration e st' = Break.
Proof.
  revert st. induction fuel as [|fuel IH]; intros st H; simpl in H.
  - discriminate.
  - destruct (iteration e st) as [| s |] eqn:Hit.
    + injection H as <-. exists 0%nat. repeat split; [lia | assumption].
    + apply IH in H as (n & Hn & Hi & Hb). exists (S n).
      repeat split; [lia | simpl; now rewrite Hit | assumption].
    + discriminate.
Qed.

Lemma iterate_catalog_length n e st st' :
  iterate n e st = Some st' ->
  length (catalog st') = (length (catalog st) + n)%nat.
Proof.
  revert st. induction n as [|n IH]; intros st H; simpl in H.
  - injection H as <-. lia.
  - destruct (iteration e st) as [| s |] eqn:Hit; try discriminate.
    apply IH in H. rewrite H.
    apply iteration_continue in Hit as (m & _ & _ & Hd).
    apply detect_ok in Hd as (x & y & p & perr & mdl & _ & _ & _ & _ & _
                              & ->).
    cbn [catalog]. rewrite length_app. simpl. lia.
Qed.

Lemma source_finder_ok fuel data peak boundary w psf c mo r s :
  source_finder fuel data peak boundary w psf = Some (Ok (c, mo, r, s)) ->
  exists st0 st,
    init_state data w = Ok st0 /\
    loop fuel (make_env data peak boundary w psf) st0 = Some (Ok st) /\
    c = catalog st /\
    mo = getitem2 (model st) (imslice (make_env data peak boundary w psf)) /\
    r = getitem2 (residual st)
          (imslice (make_env data peak boundary w psf)) /\
    s = mad_mean data.
Proof.
  unfold source_finder. destruct (init_state data w) as [st0|x];
    [|discriminate].
  destruct (loop fuel _ st0) as [[st|x]|] eqn:Hl; try discriminate.
  intros [= <- <- <- <-]. exists st0, st. now repeat split.
Qed.

Lemma source_finder_raise fuel data peak boundary w psf st0 x :
  init_state data w = Ok st0 ->
  loop fuel (make_env data peak boundary w psf) st0 = Some (Raise x) ->
  source_finder fuel data peak boundary w psf = Some (Raise x).
Proof.
  intros H0 Hl. unfold source_finder. now rewrite H0, Hl.
Qed.

Lemma init_state_ok data n m w :
  has_shape data n m -> (0 < n)%nat -> (0 <= w)%Z ->
  let k := Z.to_nat (w * 2) in
  init_state data w =
    Ok (State (padded data m k) (np_zeros (k + n + k) (k + m + k)) []).
Proof.
  intros Hs Hn Hw k. unfold init_state.
  rewrite (np_pad_ok data n m k Hs Hn) by (subst k; lia).
  cbn [bind].
  now rewrite (has_shape_shape _ _ _ (has_shape_padded data n m k Hs Hn))
    by lia.
Qed.

Lemma np_max_of_member (a : array2) (x : Q) :
  In x (flatten a) -> exists mx, np_max a = Ok mx /\ x <= mx.
Proof.
  intros Hin. destruct (np_max a) as [mx|e] eqn:Hm.
  - exists mx. split; [reflexivity|].
    apply np_max_upper in Hm. rewrite Forall_forall in Hm. now apply Hm.
  - unfold np_max in Hm. destruct (flatten a); [contradiction|discriminate].
Qed.

(** ** The noise estimate *)

(** C2.  [mad_mean] is the mean of [|x - mu|] over all samples, [mu]
    being the mean of all samples; it is never negative; and the value
    that [source_finder] returns as noise, and from which both thresholds
    of the run are taken, is [mad_mean] of the input image itself. *)
Theorem mad_mean_spec (data : array2) :
  (0 < size data)%nat ->
  mad_mean data = spec_estimateNoise (flatten data) /\
  0 <= mad_mean data /\
  forall fuel peak boundary w psf c mo r s,
    source_finder fuel data peak boundary w psf = Some (Ok (c, mo, r, s)) ->
    s = mad_mean data /\
    exists st0 st,
      init_state data w = Ok st0 /\
      loop fuel (make_env data peak boundary w psf) st0 = Some (Ok st) /\
      peak_sigma (make_env data peak boundary w psf)
        = mad_mean data * peak /\
      boundary_sigma (make_env data peak boundary w psf)
        = mad_mean data * boundary.
Proof.
  intros _. split; [apply mad_mean_unfold|].
  split; [apply mad_mean_nonneg|].
  intros fuel peak boundary w psf c mo r s H.
  apply source_finder_ok in H as (st0 & st & H0 & Hl & _ & _ & _ & ->).
  split; [reflexivity|]. exists st0, st. now repeat split.
Qed.

(** ** The threshold test *)

(** C1, as the code has it.  The loop is left exactly when the brightest
    pixel is strictly below [peak_sigma].  A peak equal to [peak_sigma]
    is therefore not excluded: like a peak one unit above, it passes the
    test and goes on to the fit. *)
Theorem peak_test_strict e st m :
  np_max (residual st) = Ok m ->
  (iteration e st = Break <-> m < peak_sigma e) /\
  (m == peak_sigma e \/ m == peak_sigma e + 1 ->
   iteration e st =
     match detect e st m with
     | Ok st' => Continue st'
     | Raise x => Raised x
     end).
Proof.
  intros Hm. split.
  - rewrite iteration_break. split.
    + intros (m' & Hm' & Hlt). congruence.
    + intros Hlt. eauto.
  - intros H. apply iteration_pass; [assumption|].
    destruct H as [->| ->]; [apply Qle_refl|].
    rewrite <- (Qplus_0_r (peak_sigma e)) at 1.
    apply Qplus_le_compat; [apply Qle_refl | discriminate].
Qed.

(** ** A fit without covariance *)

Lemma fit_gaussian_singular data psf p ier :
  leastsq_call data psf = Ok (p, None, ier) ->
  fit_gaussian data psf = Raise ValueError.
Proof.
  intros H. unfold fit_gaussian. rewrite H. reflexivity.
Qed.

Lemma fit_gaussian_covariance data psf p cov ier :
  leastsq_call data psf = Ok (p, Some cov, ier) ->
  exists perr mdl, fit_gaussian data psf = Ok (p, perr, mdl).
Proof.
  intros H. unfold fit_gaussian. rewrite H. cbn [bind np_diagonal].
  destruct (fit_mesh _ _) as [xx yy]. eauto.
Qed.

Lemma fit_gaussian_ok data psf p perr mdl :
  fit_gaussian data psf = Ok (p, perr, mdl) ->
  exists cov ier, leastsq_call data psf = Ok (p, Some cov, ier).
Proof.
  unfold fit_gaussian.
  destruct (leastsq_call data psf) as [[[p' [cov|]] ier]|x];
    try discriminate.
  cbn [bind np_diagonal]. destruct (fit_mesh _ _) as [xx yy].
  intros [= <- _ _]. eauto.
Qed.

Lemma iteration_singular e st m xpix ypix p ier :
  np_max (residual st) = Ok m -> peak_sigma e <= m ->
  locate st m = Ok (xpix, ypix) ->
  leastsq_call (fit_data e st xpix ypix) (psf_pix e) = Ok (p, None, ier) ->
  iteration e st = Raised ValueError.
Proof.
  intros Hm Hle Hloc Hcall. rewrite (iteration_pass e st m) by assumption.
  unfold detect. rewrite Hloc. cbn [bind].
  now rewrite (fit_gaussian_singular _ _ _ _ Hcall).
Qed.

(** C3, as the code has it.  A least-squares solve that comes back
    without covariance is not turned into a fit-failure value:
    [fit_gaussian] raises [ValueError], [source_finder] does not catch
    it, so the call ends with that exception, whatever the catalogue held
    after the [n] passes completed before.  A solve that comes back with
    a covariance is accepted whatever its flag [ier]. *)
Theorem singular_fit_raises n fuel data peak boundary w psf
    st0 st m xpix ypix p ier :
  let e := make_env data peak boundary w psf in
  init_state data w = Ok st0 ->
  iterate n e st0 = Some st ->
  np_max (residual st) = Ok m -> peak_sigma e <= m ->
  locate st m = Ok (xpix, ypix) ->
  leastsq_call (fit_data e st xpix ypix) (psf_pix e) = Ok (p, None, ier) ->
  (n < fuel)%nat ->
  source_finder fuel data peak boundary w psf = Some (Raise ValueError) /\
  forall data' psf' p' cov' ier',
    leastsq_call data' psf' = Ok (p', Some cov', ier') ->
    exists perr mdl, fit_gaussian data' psf' = Ok (p', perr, mdl).
Proof.
  intros e H0 Hit Hm Hle Hloc Hcall Hfuel. split.
  - apply (source_finder_raise _ _ _ _ _ _ st0); [assumption|].
    replace fuel with (n + S (fuel - S n))%nat by lia.
    rewrite (loop_iterate _ _ _ _ _ Hit). cbn [loop]. fold e.
    now rewrite (iteration_singular e st m xpix ypix p ier).
  - intros data' psf' p' cov' ier'. apply fit_gaussian_covariance.
Qed.

(** ** Configurations *)

(** X1.  A negative window width ends the call with the [ValueError] of
    [np.pad], before the loop is entered and whatever the other
    arguments are. *)
Lemma negative_width_raises fuel data peak boundary w psf :
  (w < 0)%Z ->
  source_finder fuel data peak boundary w psf = Some (Raise ValueError).
Proof.
  intros Hw. unfold source_finder, init_state, np_pad.
  destruct (Z.ltb_spec (w * 2) 0); [reflexivity | lia].
Qed.

Lemma imslice_make_env data peak boundary w psf :
  (0 <= w)%Z ->
  imslice (make_env data peak boundary w psf) =
    (Slice (Z.of_nat (Z.to_nat (w * 2))) (- Z.of_nat (Z.to_nat (w * 2))),
     Slice (Z.of_nat (Z.to_nat (w * 2))) (- Z.of_nat (Z.to_nat (w * 2)))).
Proof.
  intros Hw. unfold imslice, make_env. cbn [pad].
  now rewrite Z2Nat.id by lia.
Qed.

(** C4, as the code has it.  There is no configuration check.  For every
    image and every positive window width, whatever the two multipliers
    are, in whatever order, and however small the image is, the padded
    arrays are made and the call goes into the first pass of the loop: an
    exception can only come out of a pass.  In particular, when no pixel of
    the padded image reaches [peak_sigma] the call returns an empty
    catalogue, a zero model and the input as residual. *)
Theorem no_configuration_check fuel data peak boundary w psf n m :
  has_shape data n m -> (0 < n)%nat -> (0 < w)%Z ->
  let k := Z.to_nat (w * 2) in
  let e := make_env data peak boundary w psf in
  let st0 := State (padded data m k) (np_zeros (k + n + k) (k + m + k)) [] in
  init_state data w = Ok st0 /\
  source_finder (S fuel) data peak boundary w psf
    = match iteration e st0 with
      | Break => Some (Ok ([], np_zeros n m, data, mad_mean data))
      | Raised x => Some (Raise x)
      | Continue st1 =>
          match loop fuel e st1 with
          | None => None
          | Some (Raise x) => Some (Raise x)
          | Some (Ok st) =>
              Some (Ok (catalog st,
                        getitem2 (model st) (imslice e),
                        getitem2 (residual st) (imslice e),
                        mad_mean data))
          end
      end /\
  forall mx,
    np_max (padded data m k) = Ok mx -> mx < mad_mean data * peak ->
    source_finder (S fuel) data peak boundary w psf
      = Some (Ok ([], np_zeros n m, data, mad_mean data)).
Proof.
  intros Hs Hn Hw k e st0.
  assert (H0 : init_state data w = Ok st0)
    by (apply (init_state_ok data n m w Hs Hn); lia).
  assert (Hrun : source_finder (S fuel) data peak boundary w psf
                 = match iteration e st0 with
                   | Break => Some (Ok ([], np_zeros n m, data, mad_mean data))
                   | Raised x => Some (Raise x)
                   | Continue st1 =>
                       match loop fuel e st1 with
                       | None => None
                       | Some (Raise x) => Some (Raise x)
                       | Some (Ok st) =>
                           Some (Ok (catalog st,
                                     getitem2 (model st) (imslice e),
                                     getitem2 (residual st) (imslice e),
                                     mad_mean data))
                       end
                   end).
  { unfold source_finder. rewrite H0. fold e. cbn [loop].
    destruct (iteration e st0) as [| st1 | x]; try reflexivity.
    subst st0. cbn [catalog model residual]. subst e.
    rewrite imslice_make_env by lia. fold k.
    rewrite crop_zeros by (subst k; lia).
    rewrite (crop_padded data n m k) by (try assumption; subst k; lia).
    reflexivity. }
  split; [assumption|]. split; [assumption|].
  intros mx Hmx Hlt. rewrite Hrun.
  assert (Hb : iteration e st0 = Break).
  { apply iteration_break. exists mx. split; assumption. }
  now rewrite Hb.
Qed.

(** ** Constant images *)

Lemma size_pos (a : array2) n m :
  has_shape a n m -> (0 < n)%nat -> (0 < m)%nat -> (0 < size a)%nat.
Proof.
  intros [Hlen Hrows] Hn Hm. unfold size, flatten.
  destruct a as [|r a]; simpl in *; [lia|].
  inversion Hrows; subst. rewrite length_app. lia.
Qed.

(** ** The catalogue *)

Lemma non_increasing_snoc (l : list Q) (x : Q) :
  non_increasing (l ++ [x]) <->
  non_increasing l /\ forall l0 y, l = l0 ++ [y] -> x <= y.
Proof.
  induction l as [|a l IH].
  - simpl. split; [|tauto]. intros _. split; [exact I|].
    intros [|b l0] y H; discriminate.
  - cbn [app non_increasing]. rewrite IH. destruct l as [|b l].
    + cbn [app]. split.
      * intros [Hxa _]. split; [split; [exact I | exact I]|].
        intros [|a0 [|a1 l0]] y H; try discriminate.
        now injection H as <-.
      * intros [_ H]. split; [apply (H [] a eq_refl)|].
        split; [exact I|]. intros [|b l0] y Hy; discriminate.
    + cbn [app]. split.
      * intros [Hba [Hl Hlast]]. split; [split; assumption|].
        intros [|a0 l0] y H; [discriminate|].
        injection H as <- H. now apply (Hlast l0).
      * intros [[Hba Hl] Hlast]. split; [assumption|].
        split; [assumption|]. intros l0 y H.
        apply (Hlast (a :: l0)). cbn [app]. now rewrite H.
Qed.

Lemma source_amp_make_source e xpix ypix p :
  source_amp (make_source e xpix ypix p) = fitted_amp p.
Proof.
  now destruct p as [[[[a mx] my] sx] sy].
Qed.

(** C6, as the code has it.  The catalogue is in detection order: a
    completed pass appends one entry behind those of the earlier passes,
    and its amplitude is the amplitude that the least-squares call of
    that pass returned.  The code compares no amplitudes: the amplitudes
    stay non-increasing exactly when the newly fitted amplitude is at
    most the one of the entry before. *)
Theorem catalog_detection_order e st st' :
  iteration e st = Continue st' ->
  exists xpix ypix p cov ier,
    leastsq_call (fit_data e st xpix ypix) (psf_pix e)
      = Ok (p, Some cov, ier) /\
    catalog st' = catalog st ++ [make_source e xpix ypix p] /\
    map source_amp (catalog st')
      = map source_amp (catalog st) ++ [fitted_amp p] /\
    (non_increasing (map source_amp (catalog st')) <->
     non_increasing (map source_amp (catalog st)) /\
     forall l0 y, map source_amp (catalog st) = l0 ++ [y] ->
                  fitted_amp p <= y).
Proof.
  intros H. apply iteration_continue in H as (m & _ & _ & Hd).
  apply detect_ok in Hd as (x & y & p & perr & mdl & _ & Hfit & _ & _ & _
                            & ->).
  apply fit_gaussian_ok in Hfit as (cov & ier & Hcall).
  exists x, y, p, cov, ier. cbn [catalog].
  assert (Hamps : map source_amp (catalog st ++ [make_source e x y p])
                  = map source_amp (catalog st) ++ [fitted_amp p]).
  { rewrite map_app. cbn [map]. now rewrite source_amp_make_source. }
  split; [assumption|]. split; [reflexivity|]. split; [assumption|].
  rewrite Hamps. apply non_increasing_snoc.
Qed.

(** C7.  The entry recorded for a fitted detection at the peak pixel
    [(xpix, ypix)]: the window's half width less the fitted mean, moved
    to the peak pixel and back by the padding margin [2 * width], and the
    fitted sigmas times [2 * sqrt (2 * ln 2)].  [width / 2] is the
    integer division of the source, the exact half for an even width. *)
Theorem source_record_formula data peak boundary w psf st st' :
  let e := make_env data peak boundary w psf in
  iteration e st = Continue st' ->
  exists max_pix xpix ypix amp mean_x mean_y sigma_x sigma_y perr mdl,
    np_max (residual st) = Ok max_pix /\
    locate st max_pix = Ok (xpix, ypix) /\
    fit_gaussian (fit_data e st xpix ypix) psf
      = Ok ((amp, mean_x, mean_y, sigma_x, sigma_y), perr, mdl) /\
    catalog st' = catalog st ++
      [(amp,
        of_nat xpix + (inject_Z (w / 2) - mean_x) - inject_Z (2 * w),
        of_nat ypix + (inject_Z (w / 2) - mean_y) - inject_Z (2 * w),
        2 * np_sqrt (2 * np_log 2) * sigma_x,
        2 * np_sqrt (2 * np_log 2) * sigma_y)] /\
    (Z.even w = true -> inject_Z (w / 2) == inject_Z w / 2).
Proof.
  intros e H. apply iteration_continue in H as (m & Hm & _ & Hd).
  apply detect_ok in Hd as (x & y & p & perr & mdl & Hloc & Hfit & _ & _ & _
                            & ->).
  destruct p as [[[[a mx] my] sx] sy].
  exists m, x, y, a, mx, my, sx, sy, perr, mdl. cbn [catalog].
  repeat split; try assumption.
  - unfold make_source, e, make_env. cbn [width pad FWHM].
    now rewrite (Z.mul_comm w 2).
  - intros Hev. apply Z.even_spec in Hev as [h ->].
    rewrite Z.mul_comm, Z.div_mul by lia.
    rewrite inject_Z_mult. field.
Qed.

(** C10, as the code has it.  A pass whose peak passes the test and whose
    call of [fit_gaussian] returns (the least-squares call has come back
    with a covariance of five diagonal entries) with a model image of the
    shape of the window appends exactly one entry and subtracts the model
    from the residual window, whatever the fitted amplitude; the length
    of the catalogue is the number of completed passes. *)
Theorem pass_appends_one_record e st m xpix ypix p perr mdl :
  np_max (residual st) = Ok m -> peak_sigma e <= m ->
  locate st m = Ok (xpix, ypix) ->
  fit_gaussian (fit_data e st xpix ypix) (psf_pix e) = Ok (p, perr, mdl) ->
  length perr = 5%nat ->
  shape mdl = window_shape (resolve (model st) (subim_slice e xpix ypix)) ->
  shape mdl
    = window_shape (resolve (residual st) (subim_slice e xpix ypix)) ->
  iteration e st =
    Continue
      (State
         (update_window Qminus (residual st)
            (resolve (residual st) (subim_slice e xpix ypix)) mdl)
         (update_window (fun _ y => y) (model st)
            (resolve (model st) (subim_slice e xpix ypix)) mdl)
         (catalog st ++ [make_source e xpix ypix p])) /\
  (forall n st0 st1,
     iterate n e st0 = Some st1 ->
     length (catalog st1) = (length (catalog st0) + n)%nat) /\
  (forall fuel st0 st1,
     loop fuel e st0 = Some (Ok st1) ->
     exists n, iterate n e st0 = Some st1 /\
               length (catalog st1) = (length (catalog st0) + n)%nat).
Proof.
  intros Hm Hle Hloc Hfit Hlen Hs1 Hs2. split; [|split].
  - apply iteration_continue. exists m. repeat split; try assumption.
    apply detect_ok. exists xpix, ypix, p, perr, mdl. now repeat split.
  - intros n st0 st1. apply iterate_catalog_length.
  - intros fuel st0 st1 Hl.
    apply loop_ok_iterate in Hl as (n & _ & Hit & _).
    exists n. split; [assumption|].
    now apply (iterate_catalog_length n e).
Qed.

(** ** Flux balance *)

Lemma resolve_same_shape (a b : array2) sl :
  shape a = shape b -> resolve a sl = resolve b sl.
Proof.
  intros H. unfold resolve. now rewrite H.
Qed.


Lemma continue_window e st st' :
  iteration e st = Continue st' ->
  exists m xpix ypix p perr mdl,
    window_of e st
      = Some (resolve (residual st) (subim_slice e xpix ypix)) /\
    locate st m = Ok (xpix, ypix) /\
    fit_gaussian (fit_data e st xpix ypix) (psf_pix e) = Ok (p, perr, mdl) /\
    st' =
      State
        (update_window Qminus (residual st)
           (resolve (residual st) (subim_slice e xpix ypix)) mdl)
        (update_window (fun _ y => y) (model st)
           (resolve (model st) (subim_slice e xpix ypix)) mdl)
        (catalog st ++ [make_source e xpix ypix p]).
Proof.
  intros H. apply iteration_continue in H as (m & Hm & _ & Hd).
  apply detect_ok in Hd as (x & y & p & perr & mdl & Hloc & Hfit & _ & _ & _
                            & ->).
  exists m, x, y, p, perr, mdl. repeat split; try assumption.
  unfold window_of. now rewrite Hm, Hloc.
Qed.




End Facts.

(** ** The coordinate grid of the fit *)

(** [np.linspace(0, n, n)] puts its [n] samples at the multiples of
    [n / (n - 1)]: the last one is [n]. *)
Lemma np_linspace_nth (n k : nat) :
  (2 <= n)%nat -> (k < n)%nat ->
  nth k (np_linspace 0 (of_nat n) n) 0
    == of_nat k * (of_nat n / of_nat (n - 1)).
Proof.
  intros Hn Hk. destruct n as [|[|n']]; try lia.
  cbn [np_linspace].
  set (f := fun i => 0 + of_nat i * ((of_nat (S (S n')) - 0) / of_nat (S n'))).
  rewrite (nth_indep _ 0 (f 0%nat)) by (rewrite length_map, length_seq; lia).
  rewrite (map_nth f), seq_nth by lia. unfold f.
  replace (S (S n') - 1)%nat with (S n') by lia. cbn [Nat.add].
  assert (Hpos : 0 < of_nat (S n')) by (apply of_nat_pos; lia).
  field. intros E. rewrite E in Hpos. now apply Qlt_irrefl in Hpos.
Qed.

Lemma np_linspace_last (n : nat) :
  (2 <= n)%nat ->
  nth (n - 1) (np_linspace 0 (of_nat n) n) 0 == of_nat n.
Proof.
  intros Hn. rewrite np_linspace_nth by lia.
  assert (Hpos : 0 < of_nat (n - 1)) by (apply of_nat_pos; lia).
  field. intros E. rewrite E in Hpos. now apply Qlt_irrefl in Hpos.
Qed.

(** C8, at a window of side 4.  The mesh of [fit_gaussian] has one
    coordinate pair per pixel, but its coordinates along each axis are
    [0, 4/3, 8/3, 4], the outcome of [np.linspace(0, 4, 4)], and not the
    pixel indices [0, 1, 2, 3]. *)
Theorem fit_mesh_window4 :
  shape (fst (fit_mesh 4 4)) = (4%nat, 4%nat) /\
  shape (snd (fit_mesh 4 4)) = (4%nat, 4%nat) /\
  map (map Qred) (fst (fit_mesh 4 4)) = repeat [0; 4 # 3; 8 # 3; 4] 4 /\
  map (map Qred) (snd (fit_mesh 4 4))
    = [repeat 0 4; repeat (4 # 3) 4; repeat (8 # 3) 4; repeat 4 4] /\
  ~ get2 (fst (fit_mesh 4 4)) 0 3 == 3.
Proof.
  repeat split; try (vm_compute; reflexivity).
  intros H. vm_compute in H. discriminate.
Qed.

(** ** The theorems at concrete inputs *)

Import Sample.

Lemma Qle_by_test (a b : Q) : Qle_bool a b = true -> a <= b.
Proof.
  apply Qle_bool_iff.
Qed.

Lemma Qlt_by_test (a b : Q) : Qltb a b = true -> a < b.
Proof.
  apply Qltb_lt.
Qed.

Lemma non_increasingb_iff (l : list Q) :
  non_increasingb l = true <-> non_increasing l.
Proof.
  induction l as [|x l IH]; cbn [non_increasingb non_increasing].
  - tauto.
  - rewrite andb_true_iff, IH. destruct l as [|y l].
    + tauto.
    + now rewrite Qle_bool_iff.
Qed.

Lemma has_shape_image1 : has_shape image1 1 2.
Proof.
  split; [reflexivity | repeat constructor].
Qed.

Lemma has_shape_image2 : has_shape image2 1 8.
Proof.
  split; [reflexivity | repeat constructor].
Qed.


Lemma next_completes (e : env) (st : state) :
  completes (iteration (N := numerics) e st) = true ->
  iteration (N := numerics) e st = Continue (next e st).
Proof.
  unfold next. now destruct (iteration e st).
Qed.

Lemma run_returns fuel data peak boundary w psf :
  returns fuel data peak boundary w psf = true ->
  run fuel data peak boundary w psf
    = Some (Ok (run_entries fuel data peak boundary w psf,
                run_model fuel data peak boundary w psf,
                run_residual fuel data peak boundary w psf,
                run_noise fuel data peak boundary w psf)).
Proof.
  unfold returns, run_entries, run_model, run_residual, run_noise.
  destruct (run fuel data peak boundary w psf) as [[[[[c mo] r] s]|x]|];
    try discriminate.
  reflexivity.
Qed.

Lemma fit_of_fitted (e : env) (st : state) (xpix ypix : nat) :
  fitted e st xpix ypix = true ->
  fit_gaussian (N := numerics) (fit_data e st xpix ypix) (psf_pix e)
    = Ok (fst (fst (fit_of e st xpix ypix)),
          snd (fst (fit_of e st xpix ypix)),
          snd (fit_of e st xpix ypix)).
Proof.
  unfold fitted, fit_of.
  destruct (fit_gaussian _ _) as [[[p perr] mdl]|x]; try discriminate.
  reflexivity.
Qed.

Ltac evaluate := vm_compute; reflexivity.

Lemma mad_mean_spec_witness :
  mad_mean image1 = spec_estimateNoise (flatten image1) /\
  0 <= mad_mean image1.
Proof.
  destruct (mad_mean_spec (N := numerics) image1) as (H1 & H2 & _).
  - cbn. lia.
  - split; assumption.
Defined.

Lemma peak_test_strict_witness :
  iteration (N := numerics) (make_env (N := numerics) image1 2 1 4 psf0)
    (start image1 4) = Break
  <-> 2 < peak_sigma (make_env (N := numerics) image1 2 1 4 psf0).
Proof.
  apply (peak_test_strict (N := numerics)
           (make_env (N := numerics) image1 2 1 4 psf0) (start image1 4) 2).
  evaluate.
Defined.

Lemma singular_fit_raises_witness :
  run 1 image1 2 2 4 psf0 = Some (Raise ValueError).
Proof.
  apply (singular_fit_raises (N := numerics) 0 1 image1 2 2 4 psf0
           (start image1 4) (start image1 4) 2 8 9 (0, 2, 2, psf0, psf0) 4).
  - evaluate.
  - reflexivity.
  - evaluate.
  - apply Qle_by_test. evaluate.
  - evaluate.
  - evaluate.
  - lia.
Defined.

Lemma no_configuration_check_witness :
  2 <= 5 /\
  run 1 [[-1; 1]] 2 5 4 psf0
    = Some (Ok ([], [[0; 0]], [[-1; 1]], mad_mean [[-1; 1]])).
Proof.
  split; [discriminate|].
  destruct (no_configuration_check (N := numerics) 0 [[-1; 1]] 2 5 4 psf0 1 2)
    as (_ & _ & H).
  - split; [reflexivity | repeat constructor].
  - lia.
  - lia.
  - apply (H 1).
    + evaluate.
    + apply Qlt_by_test. evaluate.
Defined.

Lemma catalog_detection_order_witness :
  exists p,
    map source_amp
      (catalog (next (make_env (N := numerics) image1 2 1 4 psf0)
                  (start image1 4)))
    = map source_amp (catalog (start image1 4)) ++ [fitted_amp p].
Proof.
  destruct (catalog_detection_order (N := numerics)
              (make_env (N := numerics) image1 2 1 4 psf0) (start image1 4)
              (next (make_env (N := numerics) image1 2 1 4 psf0)
                 (start image1 4)))
    as (x & y & p & cov & ier & _ & _ & H & _).
  - apply next_completes. evaluate.
  - exists p. exact H.
Defined.

Lemma source_record_formula_witness :
  exists xpix ypix amp mean_x mean_y sigma_x sigma_y,
    catalog (next (make_env (N := numerics) image1 2 1 4 psf0)
               (start image1 4))
    = catalog (start image1 4) ++
        [(amp,
          of_nat xpix + (inject_Z (4 / 2) - mean_x) - inject_Z (2 * 4),
          of_nat ypix + (inject_Z (4 / 2) - mean_y) - inject_Z (2 * 4),
          2 * np_sqrt (Numerics := numerics)
                (2 * np_log (Numerics := numerics) 2) * sigma_x,
          2 * np_sqrt (Numerics := numerics)
                (2 * np_log (Numerics := numerics) 2) * sigma_y)].
Proof.
  destruct (source_record_formula (N := numerics) image1 2 1 4 psf0
              (start image1 4)
              (next (make_env (N := numerics) image1 2 1 4 psf0)
                 (start image1 4)))
    as (mx & x & y & a & m1 & m2 & s1 & s2 & perr & mdl & _ & _ & _ & H & _).
  - apply next_completes. evaluate.
  - exists x, y, a, m1, m2, s1, s2. exact H.
Defined.


Lemma pass_appends_one_record_witness :
  exists st',
    iteration (N := numerics) (make_env (N := numerics) image1 2 1 4 psf0)
      (start image1 4) = Continue st'.
Proof.
  eexists.
  apply (pass_appends_one_record (N := numerics)
           (make_env (N := numerics) image1 2 1 4 psf0) (start image1 4)
           2 8 9
           (fst (fst (fit_of (make_env (N := numerics) image1 2 1 4 psf0)
                        (start image1 4) 8 9)))
           (snd (fst (fit_of (make_env (N := numerics) image1 2 1 4 psf0)
                        (start image1 4) 8 9)))
           (snd (fit_of (make_env (N := numerics) image1 2 1 4 psf0)
                   (start image1 4) 8 9))).
  - evaluate.
  - apply Qle_by_test. evaluate.
  - evaluate.
  - apply fit_of_fitted. evaluate.
  - evaluate.
  - evaluate.
  - evaluate.
Defined.

(** ** Runs that depart from the specification *)

(** Against C1 as stated. The brightest pixel of [image1] is [2] and the
    peak threshold is [2 * 1]: the first pass does not leave the loop, and
    the run ends with that pixel in the catalogue. *)
Lemma peak_at_threshold_is_detected :
  np_max (residual (start image1 4)) = Ok 2 /\
  Qeq_bool (peak_sigma (make_env (N := numerics) image1 2 1 4 psf0)) 2
    = true /\
  leaves_loop
    (iteration (N := numerics) (make_env (N := numerics) image1 2 1 4 psf0)
       (start image1 4)) = false /\
  option_map (@length source) (run_catalog 5 image1 2 1 4 psf0)
    = Some 1%nat.
Proof.
  repeat split; evaluate.
Qed.

(** Against C3 as stated. With [peak = boundary = 2] the window around the
    peak of [image1] is zero after masking, the least-squares call returns
    without covariance, and the call of [source_finder] ends with
    [ValueError]. *)
Lemma singular_fit_surfaces :
  forallb (fun d => Qeq_bool d 0)
    (flatten (fit_data (make_env (N := numerics) image1 2 2 4 psf0)
                (start image1 4) 8 9)) = true /\
  leastsq_call (N := numerics)
    (fit_data (make_env (N := numerics) image1 2 2 4 psf0)
       (start image1 4) 8 9) psf0
    = Ok ((0, 2, 2, psf0, psf0), None, 4%Z) /\
  run 5 image1 2 2 4 psf0 = Some (Raise ValueError).
Proof.
  repeat split; evaluate.
Qed.

(** Against C4 as stated.  A call whose boundary multiplier, 5, is above
    its peak multiplier, 2, and whose window, of width 4, is wider than the
    image of one row and two columns is not refused: in every numerical
    environment it returns, with an empty catalogue, a zero model and the
    input as residual. *)
Lemma contradictory_configuration_runs :
  Qle_bool 2 5 = true /\
  forall (N : Numerics) (psf : Q),
    source_finder 1 [[-1; 1]] 2 5 4 psf
    = Some (Ok ([], [[0; 0]], [[-1; 1]], mad_mean [[-1; 1]])).
Proof.
  split; [reflexivity|]. intros N psf. vm_compute. reflexivity.
Qed.

(** Against C5 as stated. On the all-zero image the noise estimate is zero
    and the call does not return an empty catalogue: the first pass goes on
    to the window at the corner of the padded array, which is empty, and the
    call ends with [ValueError]. *)
Lemma zero_image_run :
  Qeq_bool (mad_mean [[0]]) 0 = true /\
  run 5 [[0]] 5 2 4 psf0 = Some (Raise ValueError).
Proof.
  split; evaluate.
Qed.

(** Against C6 as stated.  The image [Blobs.image] holds two Gaussians of
    the width handed to the fit.  The first pass takes the one whose peak
    pixel is 3000000, the second pass the one whose peak pixel is 2895495.
    The parameter vectors that reproduce the two windows within the
    rounding of the pixels (sums of squares over the 16 pixels below 4) have
    the amplitudes 3000000 and 3600000: the second source lies between
    grid points, and no pixel holds its amplitude.  The run ends after
    these two passes, and the second amplitude of its catalogue is the
    larger one. *)
Lemma fainter_peak_larger_amplitude :
  np_max (residual (start Blobs.image 4)) = Ok 3000000 /\
  np_max (residual (Blobs.next Blobs.env0 (start Blobs.image 4)))
    = Ok 2895495 /\
  Qle_bool (Blobs.misfit Blobs.blob_a Blobs.patch_a) 4 = true /\
  Qle_bool (Blobs.misfit Blobs.blob_b Blobs.patch_b) 4 = true /\
  Blobs.amplitudes 5 = Some [3000000; 3600000] /\
  ~ non_increasing [3000000; 3600000].
Proof.
  split; [evaluate|]. split; [evaluate|]. split; [evaluate|].
  split; [evaluate|]. split; [evaluate|].
  cbn [non_increasing]. intros [Hle _]. revert Hle. apply Qlt_not_le.
  reflexivity.
Qed.

(** Against C10 as stated. With [peak = 1] and [boundary = 3] the peak of
    [image1] passes the test and the least-squares call returns a parameter
    vector, yet no entry is appended: the pass ends with [ValueError]. *)
Lemma parameter_vector_without_record :
  np_max (residual (start image1 4)) = Ok 2 /\
  Qle_bool (peak_sigma (make_env (N := numerics) image1 1 3 4 psf0)) 2
    = true /\
  leastsq_call (N := numerics)
    (fit_data (make_env (N := numerics) image1 1 3 4 psf0)
       (start image1 4) 8 9) psf0
    = Ok ((0, 2, 2, psf0, psf0), None, 4%Z) /\
  iteration (N := numerics) (make_env (N := numerics) image1 1 3 4 psf0)
    (start image1 4) = Raised ValueError.
Proof.
  repeat split; evaluate.
Qed.


(** * Further properties of the notebook's functions *)

(** ** The peak pixel *)

Lemma Qmax_cases (x y : Q) : Qmax x y = x \/ Qmax x y = y.
Proof.
  unfold Qmax, GenericMinMax.gmax. destruct (x ?= y); auto.
Qed.

Lemma fold_left_Qmax_In (l : array1) (x : Q) :
  In (fold_left Qmax l x) (x :: l).
Proof.
  revert x. induction l as [|y l IH]; intros x; cbn [fold_left].
  - now left.
  - destruct (IH (Qmax x y)) as [H|H].
    + rewrite <- H. destruct (Qmax_cases x y) as [-> | ->].
      * now left.
      * right. now left.
    + right. now right.
Qed.

Lemma np_max_In (a : array2) (m : Q) :
  np_max a = Ok m -> In m (flatten a).
Proof.
  unfold np_max. destruct (flatten a) as [|x l]; [discriminate|].
  intros [= <-]. apply fold_left_Qmax_In.
Qed.

Lemma row_matches_first (v : Q) (row : list Q) (j0 : nat) :
  match row_matches v row j0 with
  | [] => Forall (fun x => Qeq_bool x v = false) row
  | j :: _ =>
      exists k, j = (j0 + k)%nat /\ (k < length row)%nat /\
        Qeq_bool (nth k row 0) v = true /\
        forall k', (k' < k)%nat -> Qeq_bool (nth k' row 0) v = false
  end.
Proof.
  revert j0. induction row as [|x row IH]; intros j0; cbn [row_matches].
  - constructor.
  - destruct (Qeq_bool x v) eqn:Hx.
    + exists 0%nat. cbn [nth length]. repeat split; try lia. assumption.
    + specialize (IH (S j0)).
      destruct (row_matches v row (S j0)) as [|j js].
      * now constructor.
      * destruct IH as (k & -> & Hk & Hv & Hbefore).
        exists (S k). cbn [nth length]. repeat split; try lia.
        -- assumption.
        -- intros [|k'] Hk'; [assumption | apply Hbefore; lia].
Qed.

Lemma where_first (a : array2) (v : Q) (i0 : nat) :
  match np_where_eq_from a v i0 with
  | [] => Forall (Forall (fun x => Qeq_bool x v = false)) a
  | (i, j) :: _ =>
      exists r, i = (i0 + r)%nat /\ (r < length a)%nat /\
        (j < length (nth r a []))%nat /\
        Qeq_bool (get2 a r j) v = true /\
        (forall j', (j' < j)%nat -> Qeq_bool (get2 a r j') v = false) /\
        (forall r' j', (r' < r)%nat -> (j' < length (nth r' a []))%nat ->
           Qeq_bool (get2 a r' j') v = false)
  end.
Proof.
  revert i0. induction a as [|row a IH]; intros i0;
    cbn [np_where_eq_from].
  - constructor.
  - pose proof (row_matches_first v row 0) as Hrow.
    destruct (row_matches v row 0) as [|j js].
    + cbn [map app]. specialize (IH (S i0)).
      destruct (np_where_eq_from a v (S i0)) as [|[i j] ms].
      * now constructor.
      * destruct IH as (r & -> & Hr & Hj & Hv & Hrow' & Hbefore).
        exists (S r). unfold get2 in *. cbn [nth length].
        repeat split; try lia; try assumption.
        intros [|r'] j' Hr' Hj'.
        -- rewrite Forall_forall in Hrow. apply Hrow. now apply nth_In.
        -- apply Hbefore; [lia | assumption].
    + cbn [map app]. destruct Hrow as (k & -> & Hk & Hv & Hbefore).
      exists 0%nat. unfold get2. cbn [nth length Nat.add].
      repeat split; try lia; try assumption.
Qed.

(** X3.  Once the residual has a maximum, the peak pixel is found, and
    the index error of [xpix[0]] cannot occur: it is a pixel of the array
    that holds the maximum, and no pixel before it in row-major order
    holds it. *)
Theorem locate_first_maximum (st : state) (m : Q) :
  np_max (residual st) = Ok m ->
  exists xpix ypix,
    locate st m = Ok (xpix, ypix) /\
    (xpix < length (residual st))%nat /\
    (ypix < length (nth xpix (residual st) []))%nat /\
    get2 (residual st) xpix ypix == m /\
    forall i j,
      (i < length (residual st))%nat ->
      (j < length (nth i (residual st) []))%nat ->
      (i < xpix \/ (i = xpix /\ j < ypix))%nat ->
      ~ get2 (residual st) i j == m.
Proof.
  intros Hm. apply np_max_In in Hm.
  pose proof (where_first (residual st) m 0) as Hw.
  unfold locate, np_where_eq.
  destruct (np_where_eq_from (residual st) m 0) as [|[i j] ms].
  - exfalso. unfold flatten in Hm. apply in_concat in Hm as (row & Hrow & Hin).
    rewrite Forall_forall in Hw. specialize (Hw row Hrow).
    rewrite Forall_forall in Hw. specialize (Hw m Hin).
    rewrite Qeq_bool_refl in Hw. discriminate.
  - destruct Hw as (r & -> & Hr & Hj & Hv & Hrow & Hbefore).
    cbn [Nat.add map fst snd first_elt bind].
    exists r, j. repeat split; try assumption.
    + now apply Qeq_bool_iff.
    + intros i j' Hi Hj' [Hlt | [-> Hlt]].
      * apply Qeq_bool_neq. now apply Hbefore.
      * apply Qeq_bool_neq. now apply Hrow.
Qed.

(** ** Narrow windows *)

Section Coverage.

Context {N : Numerics}.

Lemma fit_gaussian_empty (data : array2) (psf : Q) :
  flatten data = [] -> fit_gaussian data psf = Raise ValueError.
Proof.
  intros H. unfold fit_gaussian, leastsq_call, np_max. now rewrite H.
Qed.

Lemma init_state_catalog data w st0 :
  init_state data w = Ok st0 -> catalog st0 = [].
Proof.
  unfold init_state. destruct (np_pad data (w * 2)) as [a|x]; [|discriminate].
  cbn [bind]. destruct (shape a). now intros [= <-].
Qed.

Lemma narrow_fit_data e st xpix ypix :
  (width e / 2 = 0)%Z -> fit_data e st xpix ypix = [].
Proof.
  intros Hh. unfold fit_data, getitem2, resolve, subim_slice.
  rewrite Hh, Z.sub_0_r, Z.add_0_r. destruct (shape (residual st)) as [n m].
  cbn [fst snd start stop r0 r1 c0 c1]. unfold cut at 2.
  now rewrite Nat.sub_diag.
Qed.

Lemma narrow_pass e st st' :
  (width e / 2 = 0)%Z -> iteration e st <> Continue st'.
Proof.
  intros Hh Hit. apply iteration_continue in Hit as (m & _ & _ & Hd).
  apply detect_ok in Hd as (x & y & p & perr & mdl & _ & Hfit & _).
  rewrite (narrow_fit_data e st x y Hh) in Hfit.
  now rewrite fit_gaussian_empty in Hfit.
Qed.

(** X2.  With a window width of 0 or 1 the half width [width/2] is 0, the
    window around any peak is empty and its fit raises: no pass ever
    completes, so a call that returns has catalogued nothing. *)
Theorem narrow_window_detects_nothing fuel data peak boundary w psf c mo r s :
  (w / 2 = 0)%Z ->
  source_finder fuel data peak boundary w psf = Some (Ok (c, mo, r, s)) ->
  c = [] /\
  forall st st', iteration (make_env data peak boundary w psf) st
                 <> Continue st'.
Proof.
  intros Hh Hrun. split.
  - apply source_finder_ok in Hrun as (st0 & st & H0 & Hl & -> & _).
    apply loop_ok_iterate in Hl as (n & _ & Hit & _).
    destruct n as [|n]; cbn [iterate] in Hit.
    + injection Hit as <-. now apply (init_state_catalog data w).
    + destruct (iteration _ st0) as [| s1 |] eqn:E; try discriminate.
      exfalso.
      now apply (narrow_pass (make_env data peak boundary w psf) st0 s1).
  - intros st st'. now apply narrow_pass.
Qed.

(** ** Shapes *)

Lemma pass_shapes e st st' n m :
  has_shape (residual st) n m -> has_shape (model st) n m ->
  iteration e st = Continue st' ->
  has_shape (residual st') n m /\ has_shape (model st') n m.
Proof.
  intros Hr Hmo Hit.
  apply continue_window in Hit as (mx & x & y & p & perr & mdl & _ & _ & _
                                   & ->).
  cbn [residual model]. split; now apply has_shape_update_window.
Qed.

Lemma iterate_shapes k e st st' n m :
  has_shape (residual st) n m -> has_shape (model st) n m ->
  iterate k e st = Some st' ->
  has_shape (residual st') n m /\ has_shape (model st') n m.
Proof.
  revert st. induction k as [|k IH]; intros st Hr Hmo Hit; cbn [iterate] in Hit.
  - injection Hit as <-. now split.
  - destruct (iteration e st) as [| s1 |] eqn:E; try discriminate.
    destruct (pass_shapes e st s1 n m Hr Hmo E) as [Hr1 Hmo1].
    now apply (IH s1).
Qed.

(** X4.  Whatever the fits have been and wherever the windows lay, the
    model and the residual of a call that returns have the shape of the
    input when the window width is positive; with a width of 0 the crop
    [slice(0, -0)] is empty and both come back without pixels. *)
Theorem returned_images_shape fuel data peak boundary w psf n m c mo r s :
  has_shape data n m -> (0 < n)%nat -> (0 <= w)%Z ->
  source_finder fuel data peak boundary w psf = Some (Ok (c, mo, r, s)) ->
  ((0 < w)%Z -> has_shape mo n m /\ has_shape r n m) /\
  (w = 0%Z -> mo = [] /\ r = []).
Proof.
  intros Hs Hn Hw Hrun.
  apply source_finder_ok in Hrun as (st0 & st & H0 & Hl & _ & -> & -> & _).
  split.
  - intros Hpos.
    rewrite (init_state_ok data n m w Hs Hn) in H0 by lia.
    cbn zeta in H0. injection H0 as <-.
    set (k := Z.to_nat (w * 2)) in *.
    apply loop_ok_iterate in Hl as (j & _ & Hit & _).
    apply (iterate_shapes j _ _ st (k + n + k) (k + m + k)) in Hit.
    + destruct Hit as [Hr Hmo]. rewrite imslice_make_env by lia. fold k.
      split; apply has_shape_crop; try assumption; subst k; lia.
    + cbn [residual]. now apply has_shape_padded.
    + cbn [model]. apply has_shape_zeros.
  - intros ->. unfold getitem2, resolve, imslice, make_env.
    cbn [pad fst snd start stop Z.mul Z.opp].
    destruct (shape (model st)) as [a b]. destruct (shape (residual st)).
    unfold clip_index. cbn [Z.ltb Z.compare Z.min Z.to_nat].
    cbn [r0 r1 c0 c1]. unfold cut. now rewrite !Nat.sub_diag.
Qed.

(** ** What a pass changes *)

Lemma pass_outside_window e st st' n m :
  has_shape (residual st) n m -> has_shape (model st) n m -> (0 < n)%nat ->
  iteration e st = Continue st' ->
  exists w,
    window_of e st = Some w /\
    forall i j, (i < n)%nat -> (j < m)%nat -> in_window w i j = false ->
      get2 (model st') i j = get2 (model st) i j /\
      get2 (residual st') i j = get2 (residual st) i j.
Proof.
  intros Hr Hmo Hn Hit.
  apply continue_window in Hit
    as (mx & x & y & p & perr & mdl & Hw & _ & _ & ->).
  exists (resolve (residual st) (subim_slice e x y)).
  split; [assumption|]. cbn [residual model].
  rewrite (resolve_same_shape (model st) (residual st))
    by now rewrite (has_shape_shape _ _ _ Hr Hn),
                   (has_shape_shape _ _ _ Hmo Hn).
  intros i j Hi Hj Hin.
  rewrite !(get2_update_window _ _ _ _ n m) by assumption.
  rewrite Hin. now split.
Qed.


Lemma Forall_snoc {A : Type} (P : A -> Prop) (l : list A) (x : A) :
  Forall P (l ++ [x]) <-> P x /\ Forall P l.
Proof.
  rewrite Forall_app. split.
  - intros [Hl Hx]. inversion Hx. now split.
  - intros [Hx Hl]. split; [assumption | now constructor].
Qed.

Lemma untouched_run orig n m e fuel :
  (0 < n)%nat ->
  forall st st' ws,
    has_shape (residual st) n m -> has_shape (model st) n m ->
    (forall i j, (i < n)%nat -> (j < m)%nat ->
       Forall (fun u => in_window u i j = false) ws ->
       get2 (model st) i j = 0 /\ get2 (residual st) i j = get2 orig i j) ->
    loop fuel e st = Some (Ok st') ->
    forall i j, (i < n)%nat -> (j < m)%nat ->
      Forall (fun u => in_window u i j = false) (ws ++ windows fuel e st) ->
      get2 (model st') i j = 0 /\ get2 (residual st') i j = get2 orig i j.
Proof.
  intros Hn. induction fuel as [|fuel IH];
    intros st st' ws Hr Hmo Hinv Hl i j Hi Hj Hout.
  - discriminate.
  - cbn [loop windows] in *.
    destruct (iteration e st) as [| s1 |] eqn:Hit; try discriminate.
    + injection Hl as <-. rewrite app_nil_r in Hout. now apply Hinv.
    + destruct (pass_outside_window e st s1 n m Hr Hmo Hn Hit)
        as (w & Hw & Hpass).
      rewrite Hw in Hout.
      destruct (pass_shapes e st s1 n m Hr Hmo Hit) as [Hr1 Hmo1].
      apply (IH s1 st' (ws ++ [w])); try assumption.
      * intros i' j' Hi' Hj' Hout'. apply Forall_snoc in Hout' as [Hw' Hws].
        destruct (Hpass i' j' Hi' Hj' Hw') as [-> ->]. now apply Hinv.
      * now rewrite <- app_assoc.
Qed.

(** X5.  Outside the windows of its passes a call changes nothing: at
    every pixel of the input that lies in none of them the returned
    residual is the input pixel and the returned model is zero. *)
Theorem untouched_outside_windows fuel data peak boundary w psf n m c mo r s :
  has_shape data n m -> (0 < n)%nat -> (0 < w)%Z ->
  source_finder fuel data peak boundary w psf = Some (Ok (c, mo, r, s)) ->
  forall i j, (i < n)%nat -> (j < m)%nat ->
    Forall
      (fun u =>
         in_window u (Z.to_nat (w * 2) + i) (Z.to_nat (w * 2) + j) = false)
      (run_windows fuel data peak boundary w psf) ->
    get2 mo i j = 0 /\ get2 r i j = get2 data i j.
Proof.
  intros Hs Hn Hw Hrun i j Hi Hj Hout.
  apply source_finder_ok in Hrun as (st0 & st & H0 & Hl & _ & -> & -> & _).
  unfold run_windows in Hout. rewrite H0 in Hout.
  rewrite (init_state_ok data n m w Hs Hn) in H0 by lia.
  cbn zeta in H0. injection H0 as <-.
  set (k := Z.to_nat (w * 2)) in *.
  assert (Hk : (0 < k)%nat) by (subst k; lia).
  assert (Hl' := Hl). apply loop_ok_iterate in Hl' as (q & _ & Hit & _).
  apply (iterate_shapes q _ _ st (k + n + k) (k + m + k)) in Hit;
    [| now apply has_shape_padded | apply has_shape_zeros].
  destruct Hit as [Hr Hmo].
  assert (Hu : get2 (model st) (k + i) (k + j) = 0 /\
               get2 (residual st) (k + i) (k + j)
                 = get2 (padded data m k) (k + i) (k + j)).
  { apply (untouched_run (padded data m k) (k + n + k) (k + m + k)
             (make_env data peak boundary w psf) fuel ltac:(lia)
             (State (padded data m k) (np_zeros (k + n + k) (k + m + k)) [])
             st []); try assumption; try lia.
    - now apply has_shape_padded.
    - apply has_shape_zeros.
    - intros i' j' _ _ _. cbn [model residual]. now rewrite get2_zeros. }
  destruct Hu as [Hz Hsame].
  rewrite imslice_make_env by lia. fold k.
  rewrite !(get2_crop _ n m k) by assumption.
  rewrite Hz, Hsame. split; [reflexivity|].
  now apply (get2_padded data n m k).
Qed.

(** ** A fit of amplitude zero *)

Lemma nth_Forall {A : Type} (P : A -> Prop) (l : list A) (d : A) (i : nat) :
  Forall P l -> P d -> P (nth i l d).
Proof.
  intros Hl Hd. revert i. induction Hl; intros [|i]; cbn [nth]; auto.
Qed.

Lemma gauss2D_zero_amp x y p : fitted_amp p == 0 -> gauss2D x y p == 0.
Proof.
  destruct p as [[[[a mx] my] sx] sy]. cbn [fitted_amp gauss2D].
  intros ->. ring.
Qed.

Lemma get2_gauss2D_2d_zero xx yy p i j :
  fitted_amp p == 0 -> get2 (gauss2D_2d xx yy p) i j == 0.
Proof.
  intros Hp. unfold get2.
  apply (nth_Forall (fun v => v == 0)); [|reflexivity].
  apply (nth_Forall (Forall (fun v => v == 0))); [|constructor].
  unfold gauss2D_2d, gauss2D_1d. apply Forall_map, Forall_forall.
  intros rows _. apply Forall_map, Forall_forall. intros xy _.
  now apply gauss2D_zero_amp.
Qed.

Lemma fit_gaussian_model data psf p perr mdl :
  fit_gaussian data psf = Ok (p, perr, mdl) ->
  mdl = gauss2D_2d (fst (fit_mesh (fst (shape data)) (snd (shape data))))
          (snd (fit_mesh (fst (shape data)) (snd (shape data)))) p.
Proof.
  unfold fit_gaussian.
  destruct (leastsq_call data psf) as [[[p' [cov|]] ier]|x];
    try discriminate.
  cbn [bind np_diagonal]. destruct (fit_mesh _ _) as [xx yy].
  now intros [= <- _ <-].
Qed.

(** X7.  The loop does not look at the fitted amplitude: a pass whose fit
    has amplitude zero is catalogued like any other, although its model is
    zero everywhere and the residual it leaves has the pixels it started
    from. *)
Theorem zero_amplitude_pass e st st' n m l a :
  has_shape (residual st) n m ->
  iteration e st = Continue st' ->
  map source_amp (catalog st') = l ++ [a] -> a == 0 ->
  l = map source_amp (catalog st) /\
  forall i j, (i < n)%nat -> (j < m)%nat ->
    get2 (residual st') i j == get2 (residual st) i j.
Proof.
  intros Hr Hit Hcat Ha.
  apply continue_window in Hit
    as (mx & x & y & p & perr & mdl & _ & _ & Hfit & ->).
  cbn [catalog residual] in *.
  rewrite map_app in Hcat. cbn [map] in Hcat.
  rewrite source_amp_make_source in Hcat.
  apply app_inj_tail in Hcat as [<- <-]. split; [reflexivity|].
  intros i j Hi Hj. rewrite (get2_update_window _ _ _ _ n m) by assumption.
  destruct (in_window _ i j); [|reflexivity].
  rewrite (fit_gaussian_model _ _ _ _ _ Hfit).
  rewrite get2_gauss2D_2d_zero by assumption. ring.
Qed.

(** ** Windows *)

Lemma length_np_linspace lo hi n : length (np_linspace lo hi n) = n.
Proof.
  destruct n as [|[|n]]; cbn [np_linspace length]; try reflexivity.
  now rewrite length_map, length_seq.
Qed.

Lemma has_shape_fit_model r c p :
  has_shape
    (gauss2D_2d (fst (fit_mesh r c)) (snd (fit_mesh r c)) p) c r.
Proof.
  unfold fit_mesh, np_meshgrid. cbn [fst snd].
  set (x := np_linspace 0 (of_nat r) r).
  set (y := np_linspace 0 (of_nat c) c).
  assert (Hx : length x = r) by apply length_np_linspace.
  assert (Hy : length y = c) by apply length_np_linspace.
  unfold gauss2D_2d. split.
  - rewrite length_map, length_combine, !length_map. lia.
  - apply Forall_map, Forall_forall. intros [rx ry] Hin.
    pose proof (in_combine_l _ _ _ _ Hin) as Hl.
    pose proof (in_combine_r _ _ _ _ Hin) as Hr.
    apply in_map_iff in Hl as (? & <- & _).
    apply in_map_iff in Hr as (yi & <- & _).
    unfold gauss2D_1d. cbn [fst snd].
    rewrite length_map, length_combine, length_map. lia.
Qed.

Lemma clip_index_le (k : Z) (n : nat) : (clip_index k n <= n)%nat.
Proof.
  unfold clip_index. destruct (Z.ltb_spec k 0); lia.
Qed.

Lemma has_shape_getitem2 a n m sl :
  has_shape a n m -> (0 < n)%nat ->
  has_shape (getitem2 a sl)
    (fst (window_shape (resolve a sl))) (snd (window_shape (resolve a sl))).
Proof.
  intros Hs Hn. unfold getitem2, window_shape. cbn [fst snd].
  assert (H1 : (r1 (resolve a sl) <= n)%nat).
  { unfold resolve. rewrite (has_shape_shape a n m Hs Hn). cbn [r1].
    apply clip_index_le. }
  assert (H2 : (c1 (resolve a sl) <= m)%nat).
  { unfold resolve. rewrite (has_shape_shape a n m Hs Hn). cbn [c1].
    apply clip_index_le. }
  destruct Hs as [Hlen Hrows]. split.
  - rewrite length_map, length_cut by lia. reflexivity.
  - apply Forall_map, Forall_forall. intros row Hrow.
    apply In_cut in Hrow. rewrite Forall_forall in Hrows.
    rewrite length_cut by (rewrite (Hrows row Hrow); lia). reflexivity.
Qed.

Lemma has_shape_masked e a n m : has_shape a n m -> has_shape (masked e a) n m.
Proof.
  intros [Hlen Hrows]. unfold masked. split.
  - now rewrite length_map.
  - apply Forall_map. eapply Forall_impl; [|exact Hrows].
    intros row Hrow. cbv beta. now rewrite length_map.
Qed.

Lemma flatten_no_columns (a : array2) n : has_shape a n 0 -> flatten a = [].
Proof.
  intros [_ Hrows]. unfold flatten. induction Hrows as [|row a Hrow _ IH].
  - reflexivity.
  - cbn [concat]. rewrite IH. destruct row; [reflexivity | discriminate].
Qed.

(** X8.  A pass completes only on a window that is square and not empty:
    the model image of the fit has the transposed shape of the window, and
    writing it into a window of another shape raises. *)
Theorem completed_pass_window_square e st st' n m :
  has_shape (residual st) n m -> (0 < n)%nat ->
  iteration e st = Continue st' ->
  exists w,
    window_of e st = Some w /\
    (r1 w - r0 w = c1 w - c0 w)%nat /\ (0 < r1 w - r0 w)%nat.
Proof.
  intros Hr Hn Hit.
  apply iteration_continue in Hit as (mx & Hmx & _ & Hd).
  apply detect_ok in Hd as (x & y & p & perr & mdl & Hloc & Hfit & _ & _ & Hs
                            & _).
  set (sl := subim_slice e x y) in *.
  set (w := resolve (residual st) sl) in *.
  exists w. split; [unfold window_of; now rewrite Hmx, Hloc|].
  pose proof (has_shape_masked e _ _ _ (has_shape_getitem2 _ n m sl Hr Hn))
    as Hdata.
  fold w in Hdata.
  change (masked e (getitem2 (residual st) sl)) with (fit_data e st x y)
    in Hdata.
  unfold window_shape in Hdata, Hs. cbn [fst snd] in Hdata.
  set (rr := (r1 w - r0 w)%nat) in *. set (cc := (c1 w - c0 w)%nat) in *.
  assert (Hne : flatten (fit_data e st x y) <> []).
  { intros E. rewrite (fit_gaussian_empty _ _ E) in Hfit. discriminate. }
  assert (Hrr : (0 < rr)%nat).
  { destruct rr; [|lia]. exfalso. apply Hne. destruct Hdata as [Hlen _].
    apply length_zero_iff_nil in Hlen. now rewrite Hlen. }
  assert (Hcc : (0 < cc)%nat).
  { destruct cc; [|lia]. exfalso. apply Hne.
    now apply (flatten_no_columns _ rr). }
  rewrite (fit_gaussian_model _ _ _ _ _ Hfit) in Hs.
  rewrite (has_shape_shape _ _ _ Hdata Hrr) in Hs. cbn [fst snd] in Hs.
  rewrite (has_shape_shape _ _ _ (has_shape_fit_model rr cc p) Hcc) in Hs.
  injection Hs as Hs1 Hs2. split; [lia | assumption].
Qed.

Lemma resolve_subim_slice e (a : array2) n m x y :
  has_shape a n m -> (0 < n)%nat ->
  resolve a (subim_slice e x y)
  = Window (clip_index (Z.of_nat x - width e / 2) n)
      (clip_index (Z.of_nat x + width e / 2) n)
      (clip_index (Z.of_nat y - width e / 2) m)
      (clip_index (Z.of_nat y + width e / 2) m).
Proof.
  intros Hs Hn. unfold resolve. now rewrite (has_shape_shape a n m Hs Hn).
Qed.

(** X9.  The padding margin of [2 * width] is enough for every peak that
    lies on a pixel of the input: its window is the full square of side
    [2 * (width / 2)], nothing of it is cut off or wrapped around by the
    slices, and it stays inside the padded array. *)
Theorem window_inside_padding data peak boundary w psf st n m i j :
  (0 < w)%Z ->
  has_shape (residual st)
    (Z.to_nat (w * 2) + n + Z.to_nat (w * 2))
    (Z.to_nat (w * 2) + m + Z.to_nat (w * 2)) ->
  (i < n)%nat -> (j < m)%nat ->
  let k := Z.to_nat (w * 2) in
  let h := Z.to_nat (w / 2) in
  resolve (residual st)
    (subim_slice (make_env data peak boundary w psf) (k + i) (k + j))
  = Window (k + i - h) (k + i + h) (k + j - h) (k + j + h) /\
  (h <= k + i)%nat /\ (k + i + h <= k + n + k)%nat /\
  (h <= k + j)%nat /\ (k + j + h <= k + m + k)%nat.
Proof.
  intros Hw Hr Hi Hj k h.
  assert (Hh : (0 <= w / 2 <= w)%Z).
  { split; [apply Z.div_pos; lia|]. apply Z.div_le_upper_bound; lia. }
  rewrite (resolve_subim_slice _ _ _ _ _ _ Hr) by lia.
  change (width (make_env data peak boundary w psf)) with w.
  subst h k. revert Hh. generalize (w / 2)%Z. intros hz Hh.
  rewrite !clip_index_nonneg by lia.
  split; [f_equal; lia | lia].
Qed.

Lemma flatten_cut_empty (rows : array2) lo hi :
  (hi - lo = 0)%nat -> flatten (map (cut lo hi) rows) = [].
Proof.
  intros E. unfold flatten, cut. rewrite E.
  induction rows as [|row rows IH]; [reflexivity | exact IH].
Qed.

Lemma edge_fit_data_empty e st n m x y :
  has_shape (residual st) n m -> (0 < n)%nat ->
  (0 < width e / 2)%Z ->
  (2 * (width e / 2) <= Z.of_nat n)%Z ->
  (2 * (width e / 2) <= Z.of_nat m)%Z ->
  (Z.of_nat x < width e / 2 \/ Z.of_nat y < width e / 2)%Z ->
  flatten (fit_data e st x y) = [].
Proof.
  intros Hr Hn Hh Hhn Hhm Hedge.
  unfold fit_data, masked. rewrite flatten_map.
  unfold getitem2. rewrite (resolve_subim_slice _ _ _ _ _ _ Hr Hn).
  cbn [r0 r1 c0 c1].
  set (h := (width e / 2)%Z) in *.
  destruct Hedge as [Hx | Hy].
  - assert (E : (clip_index (Z.of_nat x + h) n
                 - clip_index (Z.of_nat x - h) n = 0)%nat).
    { unfold clip_index.
      destruct (Z.ltb_spec (Z.of_nat x + h) 0);
        destruct (Z.ltb_spec (Z.of_nat x - h) 0); lia. }
    unfold cut at 2. now rewrite E.
  - assert (E : (clip_index (Z.of_nat y + h) m
                 - clip_index (Z.of_nat y - h) m = 0)%nat).
    { unfold clip_index.
      destruct (Z.ltb_spec (Z.of_nat y + h) 0);
        destruct (Z.ltb_spec (Z.of_nat y - h) 0); lia. }
    now rewrite flatten_cut_empty.
Qed.

Lemma edge_pass_raises e st n m mx x y :
  has_shape (residual st) n m -> (0 < n)%nat ->
  (0 < width e / 2)%Z ->
  (2 * (width e / 2) <= Z.of_nat n)%Z ->
  (2 * (width e / 2) <= Z.of_nat m)%Z ->
  np_max (residual st) = Ok mx -> peak_sigma e <= mx ->
  locate st mx = Ok (x, y) ->
  (Z.of_nat x < width e / 2 \/ Z.of_nat y < width e / 2)%Z ->
  iteration e st = Raised ValueError.
Proof.
  intros Hr Hn Hh Hhn Hhm Hmx Hle Hloc Hedge.
  rewrite (iteration_pass e st mx) by assumption.
  unfold detect. rewrite Hloc. cbn [bind].
  now rewrite fit_gaussian_empty
    by now apply (edge_fit_data_empty e st n m).
Qed.

(** X10.  A peak closer than [width / 2] to the top or to the left edge of
    the padded array has no window: the start of its slice is negative,
    counts from the far end, and selects nothing; the pass ends with the
    [ValueError] of the maximum of an empty array, and so does the call. *)
Theorem edge_peak_raises e st fuel n m mx x y :
  has_shape (residual st) n m -> (0 < n)%nat ->
  (0 < width e / 2)%Z ->
  (2 * (width e / 2) <= Z.of_nat n)%Z ->
  (2 * (width e / 2) <= Z.of_nat m)%Z ->
  np_max (residual st) = Ok mx -> peak_sigma e <= mx ->
  locate st mx = Ok (x, y) ->
  (Z.of_nat x < width e / 2 \/ Z.of_nat y < width e / 2)%Z ->
  window_shape (resolve (residual st) (subim_slice e x y)) <> (
    Z.to_nat (2 * (width e / 2)), Z.to_nat (2 * (width e / 2))) /\
  iteration e st = Raised ValueError /\
  loop (S fuel) e st = Some (Raise ValueError).
Proof.
  intros Hr Hn Hh Hhn Hhm Hmx Hle Hloc Hedge.
  assert (Hit : iteration e st = Raised ValueError)
    by now apply (edge_pass_raises e st n m mx x y).
  split; [|split; [assumption | cbn [loop]; now rewrite Hit]].
  unfold window_shape. rewrite (resolve_subim_slice _ _ _ _ _ _ Hr Hn).
  cbn [r0 r1 c0 c1]. unfold clip_index.
  intros E. pose proof (f_equal fst E) as E1. pose proof (f_equal snd E) as E2.
  cbn [fst snd] in E1, E2. clear E. revert E1 E2.
  destruct (Z.ltb_spec (Z.of_nat x + width e / 2) 0);
    destruct (Z.ltb_spec (Z.of_nat x - width e / 2) 0);
    destruct (Z.ltb_spec (Z.of_nat y + width e / 2) 0);
    destruct (Z.ltb_spec (Z.of_nat y - width e / 2) 0); lia.
Qed.

(** ** A blank image *)

Lemma flatten_padded_In (a : array2) m k x :
  In x (flatten (padded a m k)) -> x = 0 \/ In x (flatten a).
Proof.
  unfold flatten, padded. intros H.
  apply in_concat in H as (row & Hrow & Hx).
  rewrite !in_app_iff in Hrow. destruct Hrow as [Hb | [Hm | Hb]].
  - apply repeat_spec in Hb. subst row. left. now apply repeat_spec in Hx.
  - apply in_map_iff in Hm as (r & <- & Hr).
    rewrite !in_app_iff in Hx. destruct Hx as [Hx | [Hx | Hx]].
    + left. now apply repeat_spec in Hx.
    + right. apply in_concat. now exists r.
    + left. now apply repeat_spec in Hx.
  - apply repeat_spec in Hb. subst row. left. now apply repeat_spec in Hx.
Qed.

Lemma locate_corner (a mo : array2) (c : list source) m k mx :
  (0 < k)%nat -> mx == 0 ->
  locate (State (padded a m k) mo c) mx = Ok (0, 0)%nat.
Proof.
  intros Hk Hmx. destruct k as [|k]; [lia|].
  assert (E : Qeq_bool 0 mx = true)
    by (apply Qeq_bool_iff; now symmetry).
  unfold locate, np_where_eq, padded. cbn [residual].
  cbn [repeat Nat.add app np_where_eq_from row_matches].
  rewrite E. reflexivity.
Qed.

Lemma corner_call_raises fuel data n m peak boundary w psf :
  has_shape data n m -> (0 < n)%nat ->
  Forall (fun x => x <= 0) (flatten data) ->
  mad_mean data * peak <= 0 -> (2 <= w)%Z ->
  source_finder (S fuel) data peak boundary w psf = Some (Raise ValueError).
Proof.
  intros Hs Hn Hc Hp0 Hw.
  set (k := Z.to_nat (w * 2)).
  assert (Hk : (0 < k)%nat) by (subst k; lia).
  pose proof (init_state_ok data n m w Hs Hn ltac:(lia)) as Hinit.
  cbv zeta in Hinit. fold k in Hinit.
  set (st0 := State (padded data m k) (np_zeros (k + n + k) (k + m + k)) [])
    in *.
  apply (source_finder_raise _ _ _ _ _ _ st0); [assumption|].
  set (e := make_env data peak boundary w psf).
  destruct (np_max_of_member (residual st0) 0) as (mx & Hmx & Hge).
  { now apply (padded_has_zero data n m k). }
  assert (Hle : mx <= 0).
  { apply np_max_In, flatten_padded_In in Hmx as [-> | Hin].
    - apply Qle_refl.
    - rewrite Forall_forall in Hc. now apply Hc. }
  assert (Hz : mx == 0) by now apply Qle_antisym.
  assert (Hp : peak_sigma e <= mx).
  { subst e. cbn [make_env peak_sigma]. now rewrite Hz. }
  assert (Hh : (0 < w / 2 <= w)%Z).
  { split; [apply Z.div_str_pos; lia|].
    apply Z.div_le_upper_bound; lia. }
  cbn [loop].
  rewrite (edge_pass_raises e st0 (k + n + k) (k + m + k) mx 0 0).
  - reflexivity.
  - now apply has_shape_padded.
  - lia.
  - exact (proj1 Hh).
  - change (width e) with w. subst k. lia.
  - change (width e) with w. subst k. lia.
  - assumption.
  - assumption.
  - now apply locate_corner.
  - left. change (width e) with w. cbn [Z.of_nat]. lia.
Qed.

(** X11.  A peak multiplier that is not positive is not refused, and on
    an image without a positive pixel it makes the call fail: the peak
    threshold is then at most 0, the brightest pixel of the padded array is
    the 0 at its first corner, that corner has no window, and for a window
    width of 2 or more [source_finder] ends with [ValueError]. *)
Theorem nonpositive_peak_multiplier_raises fuel data n m peak boundary w psf :
  has_shape data n m -> (0 < n)%nat ->
  Forall (fun x => x <= 0) (flatten data) ->
  peak <= 0 -> (2 <= w)%Z ->
  source_finder (S fuel) data peak boundary w psf = Some (Raise ValueError).
Proof.
  intros Hs Hn Hc Hp Hw.
  apply (corner_call_raises fuel data n m); try assumption.
  pose proof (mad_mean_nonneg data) as Hm.
  setoid_replace (mad_mean data * peak) with (- (mad_mean data * - peak))
    by ring.
  assert (H : 0 <= mad_mean data * - peak).
  { apply Qmult_le_0_compat; [assumption|].
    apply (Qopp_le_compat peak 0) in Hp. exact Hp. }
  apply (Qopp_le_compat 0 _) in H. exact H.
Qed.

(** ** The all-zero image *)

Lemma locate_exists (st : state) (mx : Q) :
  np_max (residual st) = Ok mx -> exists x y, locate st mx = Ok (x, y).
Proof.
  intros Hm. apply np_max_In in Hm.
  pose proof (where_first (residual st) mx 0) as Hw.
  unfold locate, np_where_eq.
  destruct (np_where_eq_from (residual st) mx 0) as [|[i j] ms].
  - exfalso. unfold flatten in Hm. apply in_concat in Hm as (row & Hrow & Hin).
    rewrite Forall_forall in Hw. specialize (Hw row Hrow).
    rewrite Forall_forall in Hw. specialize (Hw mx Hin).
    rewrite Qeq_bool_refl in Hw. discriminate.
  - exists i, j. reflexivity.
Qed.

Lemma flatten_padded_incl (a : array2) m k x :
  In x (flatten a) -> In x (flatten (padded a m k)).
Proof.
  unfold flatten, padded. intros H.
  apply in_concat in H as (row & Hrow & Hx). apply in_concat.
  exists (repeat 0 k ++ row ++ repeat 0 k). split.
  - rewrite !in_app_iff. right. left.
    apply in_map_iff. now exists row.
  - rewrite !in_app_iff. right. now left.
Qed.

Lemma narrow_call_raises fuel data n m peak boundary w psf x :
  has_shape data n m -> (0 < n)%nat ->
  In x (flatten data) -> mad_mean data * peak <= x ->
  (0 <= w)%Z -> (w / 2 = 0)%Z ->
  source_finder (S fuel) data peak boundary w psf = Some (Raise ValueError).
Proof.
  intros Hs Hn Hx Hp Hw Hh.
  set (k := Z.to_nat (w * 2)).
  pose proof (init_state_ok data n m w Hs Hn Hw) as Hinit.
  cbv zeta in Hinit. fold k in Hinit.
  set (st0 := State (padded data m k) (np_zeros (k + n + k) (k + m + k)) [])
    in *.
  apply (source_finder_raise _ _ _ _ _ _ st0); [assumption|].
  set (e := make_env data peak boundary w psf).
  destruct (np_max_of_member (residual st0) x) as (mx & Hmx & Hge).
  { now apply flatten_padded_incl. }
  destruct (locate_exists st0 mx Hmx) as (xp & yp & Hloc).
  cbn [loop].
  rewrite (iteration_pass e st0 mx Hmx)
    by (subst e; cbn [make_env peak_sigma]; now apply (Qle_trans _ x)).
  unfold detect. rewrite Hloc. cbn [bind].
  rewrite (narrow_fit_data e st0 xp yp) by exact Hh.
  now rewrite fit_gaussian_empty.
Qed.

(** C5, as the code has it.  On an all-zero image the noise estimate is 0
    and so are both thresholds, whatever the multipliers; but the test of
    the loop is [max_pix < peak_sigma], and the brightest pixel, 0, is not
    below 0.  The first pass therefore goes on to cut a window, the window
    is empty, and the call ends with [ValueError]: for no window width and
    for no multipliers does it return an empty catalogue. *)
Theorem zero_image_never_returns data n m :
  has_shape data n m -> (0 < n)%nat -> (0 < m)%nat ->
  Forall (fun x => x == 0) (flatten data) ->
  mad_mean data == 0 /\
  forall fuel peak boundary w psf,
    peak_sigma (make_env data peak boundary w psf) == 0 /\
    boundary_sigma (make_env data peak boundary w psf) == 0 /\
    source_finder (S fuel) data peak boundary w psf
      = Some (Raise ValueError).
Proof.
  intros Hs Hn Hm Hz.
  assert (Hsize : (0 < size data)%nat) by now apply (size_pos data n m).
  assert (H0 : mad_mean data == 0) by now apply (mad_mean_const 0).
  split; [assumption|]. intros fuel peak boundary w psf.
  cbn [make_env peak_sigma boundary_sigma].
  split; [rewrite H0; apply Qmult_0_l|].
  split; [rewrite H0; apply Qmult_0_l|].
  assert (Hp : mad_mean data * peak == 0) by (rewrite H0; apply Qmult_0_l).
  destruct (Z.lt_ge_cases w 0) as [Hneg | Hw].
  - unfold source_finder, init_state, np_pad.
    destruct (Z.ltb_spec (w * 2) 0); [reflexivity | lia].
  - destruct (Z.lt_ge_cases w 2) as [Hsmall | Hbig].
    + unfold size in Hsize.
      destruct (flatten data) as [|x l] eqn:E; [cbn in Hsize; lia|].
      apply (narrow_call_raises fuel data n m peak boundary w psf x);
        try assumption.
      * rewrite E. now left.
      * rewrite Hp. apply Forall_inv in Hz. rewrite Hz. apply Qle_refl.
      * now apply Z.div_small.
    + apply (corner_call_raises fuel data n m); try assumption.
      * eapply Forall_impl; [|exact Hz]. intros x Hx. cbv beta.
        rewrite Hx. apply Qle_refl.
      * rewrite Hp. apply Qle_refl.
Qed.

(** ** The data and the model of a fit *)

Lemma cut_nil {A : Type} (lo hi : nat) : cut lo hi (@nil A) = [].
Proof. unfold cut. now rewrite skipn_nil, firstn_nil. Qed.

Lemma get2_getitem2 (a : array2) sl i j :
  (i < r1 (resolve a sl) - r0 (resolve a sl))%nat ->
  (j < c1 (resolve a sl) - c0 (resolve a sl))%nat ->
  get2 (getitem2 a sl) i j
  = get2 a (r0 (resolve a sl) + i) (c0 (resolve a sl) + j).
Proof.
  intros Hi Hj. unfold get2, getitem2.
  set (w := resolve a sl) in *.
  replace (nth i (map (cut (c0 w) (c1 w)) (cut (r0 w) (r1 w) a)) [])
    with (cut (c0 w) (c1 w) (nth i (cut (r0 w) (r1 w) a) []))
    by (rewrite <- (map_nth (cut (c0 w) (c1 w))); now rewrite cut_nil).
  now rewrite !nth_cut.
Qed.

Lemma get2_fit_data e st n m x y i j :
  has_shape (residual st) n m -> (0 < n)%nat ->
  (i < r1 (resolve (residual st) (subim_slice e x y))
       - r0 (resolve (residual st) (subim_slice e x y)))%nat ->
  (j < c1 (resolve (residual st) (subim_slice e x y))
       - c0 (resolve (residual st) (subim_slice e x y)))%nat ->
  get2 (fit_data e st x y) i j
  = get2 (residual st)
      (r0 (resolve (residual st) (subim_slice e x y)) + i)
      (c0 (resolve (residual st) (subim_slice e x y)) + j)
    * (if Qltb (boundary_sigma e)
            (get2 (residual st)
               (r0 (resolve (residual st) (subim_slice e x y)) + i)
               (c0 (resolve (residual st) (subim_slice e x y)) + j))
       then 1 else 0).
Proof.
  intros Hr Hn Hi Hj.
  pose proof (has_shape_getitem2 _ n m (subim_slice e x y) Hr Hn) as Hg.
  unfold window_shape in Hg. cbn [fst snd] in Hg.
  unfold fit_data, masked, get2 at 1.
  pose proof (has_shape_row _ _ _ i Hg Hi) as Hrow.
  destruct Hg as [Hlen _].
  rewrite (nth_indep _ [] (map (fun v0 : Q =>
             v0 * (if Qltb (boundary_sigma e) v0 then 1 else 0)) []))
    by (rewrite length_map; lia).
  rewrite (map_nth (map (fun v0 : Q =>
             v0 * (if Qltb (boundary_sigma e) v0 then 1 else 0)))).
  rewrite (nth_indep _ 0 ((fun v0 : Q =>
             v0 * (if Qltb (boundary_sigma e) v0 then 1 else 0)) 0))
    by (rewrite length_map; lia).
  rewrite (map_nth (fun v0 : Q =>
             v0 * (if Qltb (boundary_sigma e) v0 then 1 else 0))).
  fold (get2 (getitem2 (residual st) (subim_slice e x y)) i j).
  now rewrite get2_getitem2.
Qed.

(** X12.  Which pixels the fit works on: inside the window the fit is
    handed the residual pixel where that pixel is above the boundary
    threshold, and 0 where it is at or below it. *)
Theorem fit_sees_bright_pixels e st n m x y i j :
  has_shape (residual st) n m -> (0 < n)%nat ->
  let w := resolve (residual st) (subim_slice e x y) in
  (i < r1 w - r0 w)%nat -> (j < c1 w - c0 w)%nat ->
  let v := get2 (residual st) (r0 w + i) (c0 w + j) in
  (boundary_sigma e < v -> get2 (fit_data e st x y) i j == v) /\
  (v <= boundary_sigma e -> get2 (fit_data e st x y) i j == 0).
Proof.
  intros Hr Hn w Hi Hj v.
  rewrite (get2_fit_data e st n m x y i j Hr Hn Hi Hj). fold w v.
  split; intros Hv.
  - apply Qltb_lt in Hv. rewrite Hv. apply Qmult_1_r.
  - apply Qltb_ge in Hv. rewrite Hv. apply Qmult_0_r.
Qed.

Lemma combine_map_same {A B C : Type} (f : A -> B) (g : A -> C) (l : list A) :
  combine (map f l) (map g l) = map (fun x => (f x, g x)) l.
Proof.
  induction l as [|x l IH]; [reflexivity|]. cbn [map combine]. now rewrite IH.
Qed.

Lemma gauss2D_1d_row (x : array1) (c : Q) p :
  gauss2D_1d x (map (fun _ => c) x) p = map (fun xj => gauss2D xj c p) x.
Proof.
  unfold gauss2D_1d.
  rewrite <- (map_id x) at 1. rewrite combine_map_same, map_map.
  reflexivity.
Qed.

Lemma gauss2D_2d_mesh (x y : array1) p :
  gauss2D_2d (fst (np_meshgrid x y)) (snd (np_meshgrid x y)) p
  = map (fun yi => map (fun xj => gauss2D xj yi p) x) y.
Proof.
  unfold gauss2D_2d, np_meshgrid. cbn [fst snd].
  rewrite combine_map_same, map_map. apply map_ext. intros yi.
  cbn [fst snd]. apply gauss2D_1d_row.
Qed.

(** X13.  The axes of the model image: for data of [n] rows and [m] columns
    the model has [m] rows and [n] columns, and its pixel [(i, j)] is the
    Gaussian at the [j]-th sample of the first grid and the [i]-th sample
    of the second: [mean_x] and [sigma_x] act along the second index of the
    model. *)
Theorem model_axes data psf p perr mdl n m i j :
  has_shape data n m -> (0 < n)%nat ->
  fit_gaussian data psf = Ok (p, perr, mdl) ->
  (i < m)%nat -> (j < n)%nat ->
  has_shape mdl m n /\
  get2 mdl i j
  = gauss2D (nth j (np_linspace 0 (of_nat n) n) 0)
      (nth i (np_linspace 0 (of_nat m) m) 0) p.
Proof.
  intros Hs Hn Hfit Hi Hj.
  rewrite (fit_gaussian_model _ _ _ _ _ Hfit).
  rewrite (has_shape_shape _ _ _ Hs Hn). cbn [fst snd].
  split; [apply has_shape_fit_model|].
  unfold fit_mesh. rewrite gauss2D_2d_mesh.
  set (x := np_linspace 0 (of_nat n) n).
  set (y := np_linspace 0 (of_nat m) m).
  assert (Hx : length x = n) by apply length_np_linspace.
  assert (Hy : length y = m) by apply length_np_linspace.
  unfold get2.
  rewrite (nth_indep _ []
             ((fun yi => map (fun xj => gauss2D xj yi p) x) 0))
    by (rewrite length_map; lia).
  rewrite (map_nth (fun yi => map (fun xj => gauss2D xj yi p) x)).
  rewrite (nth_indep _ 0 ((fun xj => gauss2D xj (nth i y 0) p) 0))
    by (rewrite length_map; lia).
  now rewrite (map_nth (fun xj => gauss2D xj (nth i y 0) p)).
Qed.

Lemma combine_app_same {A B : Type} (a l : list A) (b l' : list B) :
  length a = length b ->
  combine (a ++ l) (b ++ l') = combine a b ++ combine l l'.
Proof.
  revert b. induction a as [|x a IH]; intros [|z b] H; try discriminate.
  - reflexivity.
  - cbn [app combine]. f_equal. apply IH. now injection H.
Qed.

Lemma flatten_gauss2D_2d (xx yy : array2) p :
  Forall2 (fun rx ry => length rx = length ry) xx yy ->
  flatten (gauss2D_2d xx yy p) = gauss2D_1d (flatten xx) (flatten yy) p.
Proof.
  unfold flatten, gauss2D_2d, gauss2D_1d.
  induction 1 as [|rx ry xx yy Hlen _ IH]; [reflexivity|].
  cbn [combine map concat fst snd].
  rewrite IH, combine_app_same, map_app by assumption. reflexivity.
Qed.

Lemma mesh_rows (x y : array1) :
  Forall2 (fun rx ry => length rx = length ry)
    (fst (np_meshgrid x y)) (snd (np_meshgrid x y)).
Proof.
  unfold np_meshgrid. cbn [fst snd].
  induction y as [|yi y IH]; cbn [map]; constructor.
  - now rewrite length_map.
  - exact IH.
Qed.

Lemma size_has_shape (a : array2) n m : has_shape a n m -> size a = (n * m)%nat.
Proof.
  intros [Hlen Hrows]. subst n. unfold size, flatten.
  induction Hrows as [|row a Hrow _ IH]; [reflexivity|].
  cbn [concat length]. rewrite length_app, IH, Hrow. reflexivity.
Qed.

Lemma diff_self_zero (l : array1) :
  Forall (fun v => v == 0) (map (fun gd => fst gd - snd gd) (combine l l)).
Proof.
  induction l as [|x l IH]; cbn [combine map]; constructor.
  - cbn [fst snd]. ring.
  - exact IH.
Qed.

(** X14.  The residual function and the model image agree: on the mesh of
    a fit, [err] at the parameters [p] against the flattened model image of
    [p] has one entry per pixel, and every entry is 0. *)
Theorem err_of_model_vanishes r c p :
  let xx := fst (fit_mesh r c) in
  let yy := snd (fit_mesh r c) in
  let e := err p (flatten xx) (flatten yy) (flatten (gauss2D_2d xx yy p)) in
  length e = (r * c)%nat /\ Forall (fun v => v == 0) e.
Proof.
  intros xx yy e. subst e.
  assert (Hm : flatten (gauss2D_2d xx yy p)
               = gauss2D_1d (flatten xx) (flatten yy) p)
    by (apply flatten_gauss2D_2d, mesh_rows).
  unfold err. rewrite <- Hm. split; [|apply diff_self_zero].
  rewrite length_map, length_combine, Nat.min_id.
  pose proof (size_has_shape _ _ _ (has_shape_fit_model r c p)) as Hsz.
  unfold size in Hsz. subst xx yy. rewrite Hsz. apply Nat.mul_comm.
Qed.

End Coverage.

(** ** The starting point of a fit *)

Lemma locate_value (st : state) (m : Q) x y :
  locate st m = Ok (x, y) -> get2 (residual st) x y == m.
Proof.
  pose proof (where_first (residual st) m 0) as Hw.
  unfold locate, np_where_eq.
  destruct (np_where_eq_from (residual st) m 0) as [|[i j] ms];
    [discriminate|].
  destruct Hw as (r & -> & _ & _ & Hv & _).
  cbn [Nat.add map fst snd first_elt bind]. intros [= <- <-].
  now apply Qeq_bool_iff.
Qed.

Lemma get2_In (a : array2) n m i j :
  has_shape a n m -> (i < n)%nat -> (j < m)%nat -> In (get2 a i j) (flatten a).
Proof.
  intros Hs Hi Hj. pose proof (has_shape_row a n m i Hs Hi) as Hrow.
  destruct Hs as [Hlen _]. unfold get2, flatten. apply in_concat.
  exists (nth i a []). split; apply nth_In; lia.
Qed.

Lemma In_flatten_getitem2 (a : array2) sl v :
  In v (flatten (getitem2 a sl)) -> In v (flatten a).
Proof.
  unfold flatten, getitem2. intros H.
  apply in_concat in H as (row' & Hrow' & Hv).
  apply in_map_iff in Hrow' as (row & <- & Hrow).
  apply In_cut in Hrow. apply In_cut in Hv.
  apply in_concat. now exists row.
Qed.

Section Start.

Context {N : Numerics}.

(** X19.  A fit starts on the peak pixel.  For a peak of value [mx >= 0]
    above the boundary threshold whose window is not cut by an edge, the
    window has side [2 * (width / 2)], its pixel [(width / 2, width / 2)]
    holds [mx], and [leastsq] is called on the mesh of that window with a
    starting point whose amplitude is [mx], whose centre is that pixel and
    whose widths are [psf_pix]. *)
Theorem fit_starts_on_peak e st n m mx x y :
  has_shape (residual st) n m -> (0 < n)%nat ->
  np_max (residual st) = Ok mx -> locate st mx = Ok (x, y) ->
  0 <= mx -> boundary_sigma e < mx ->
  let h := Z.to_nat (width e / 2) in
  (0 < h)%nat ->
  (h <= x)%nat -> (x + h <= n)%nat -> (h <= y)%nat -> (y + h <= m)%nat ->
  exists amp0,
    amp0 == mx /\
    has_shape (fit_data e st x y) (2 * h) (2 * h) /\
    get2 (fit_data e st x y) h h == mx /\
    leastsq_call (fit_data e st x y) (psf_pix e)
    = leastsq err (amp0, of_nat h, of_nat h, psf_pix e, psf_pix e)
        (flatten (fst (fit_mesh (2 * h) (2 * h))),
         flatten (snd (fit_mesh (2 * h) (2 * h))),
         flatten (fit_data e st x y)).
Proof.
  intros Hr Hn Hmx Hloc H0 Hb h Hh Hx1 Hx2 Hy1 Hy2.
  assert (Hw : resolve (residual st) (subim_slice e x y)
               = Window (x - h) (x + h) (y - h) (y + h)).
  { rewrite (resolve_subim_slice _ _ _ _ _ _ Hr Hn).
    subst h. revert Hh Hx1 Hx2 Hy1 Hy2. generalize (width e / 2)%Z.
    intros hz Hh Hx1 Hx2 Hy1 Hy2.
    rewrite !clip_index_nonneg by lia. f_equal; lia. }
  assert (Hdata : has_shape (fit_data e st x y) (2 * h) (2 * h)).
  { pose proof (has_shape_masked e _ _ _
                  (has_shape_getitem2 _ n m (subim_slice e x y) Hr Hn)) as H.
    rewrite Hw in H. unfold window_shape in H. cbn [fst snd r0 r1 c0 c1] in H.
    replace (2 * h)%nat with (x + h - (x - h))%nat at 1 by lia.
    replace (2 * h)%nat with (y + h - (y - h))%nat by lia. exact H. }
  pose proof (locate_value st mx x y Hloc) as Hv.
  assert (Hpix : get2 (fit_data e st x y) h h == mx).
  { rewrite (get2_fit_data e st n m x y h h Hr Hn)
      by (rewrite Hw; cbn [r0 r1 c0 c1]; lia).
    rewrite Hw. cbn [r0 r1 c0 c1].
    replace (x - h + h)%nat with x by lia.
    replace (y - h + h)%nat with y by lia.
    assert (Ht : Qltb (boundary_sigma e) (get2 (residual st) x y) = true)
      by (apply Qltb_lt; now rewrite Hv).
    rewrite Ht, Hv. apply Qmult_1_r. }
  destruct (np_max_of_member (fit_data e st x y)
              (get2 (fit_data e st x y) h h)) as (amp0 & Hamp & Hge).
  { apply (get2_In _ (2 * h) (2 * h)); [assumption | lia | lia]. }
  assert (Hle : amp0 <= mx).
  { pose proof (np_max_In _ _ Hamp) as Hin.
    unfold fit_data, masked in Hin. rewrite flatten_map in Hin.
    apply in_map_iff in Hin as (v & <- & Hin).
    apply In_flatten_getitem2 in Hin.
    pose proof (np_max_upper _ _ Hmx) as Hup.
    rewrite Forall_forall in Hup. specialize (Hup v Hin).
    destruct (Qltb (boundary_sigma e) v).
    - now rewrite Qmult_1_r.
    - now rewrite Qmult_0_r. }
  exists amp0. split; [|split; [assumption | split; [assumption|]]].
  - apply Qle_antisym; [assumption|]. now rewrite <- Hpix.
  - unfold leastsq_call. rewrite Hamp. cbn [bind].
    rewrite (has_shape_shape _ _ _ Hdata) by lia. cbn [fst snd].
    replace (2 * h / 2)%nat with h
      by (rewrite Nat.mul_comm, Nat.div_mul; [reflexivity | lia]).
    now destruct (fit_mesh (2 * h) (2 * h)).
Qed.

End Start.

(** ** Instances of the further properties *)

Lemma start_shapes data n m w :
  has_shape data n m -> (0 < n)%nat -> (0 <= w)%Z ->
  has_shape (residual (start data w))
    (Z.to_nat (w * 2) + n + Z.to_nat (w * 2))
    (Z.to_nat (w * 2) + m + Z.to_nat (w * 2)) /\
  has_shape (model (start data w))
    (Z.to_nat (w * 2) + n + Z.to_nat (w * 2))
    (Z.to_nat (w * 2) + m + Z.to_nat (w * 2)).
Proof.
  intros Hs Hn Hw. unfold start.
  rewrite (init_state_ok data n m w Hs Hn Hw). cbn [residual model]. split.
  - now apply has_shape_padded.
  - apply has_shape_zeros.
Qed.

Lemma shape_start_image1 :
  has_shape (residual (start image1 4)) 17 18 /\
  has_shape (model (start image1 4)) 17 18.
Proof.
  apply (start_shapes image1 1 2 4 has_shape_image1); lia.
Qed.

Lemma stalled_next_completes (e : env) (st : state) :
  completes (iteration (N := Stalled.numerics) e st) = true ->
  iteration (N := Stalled.numerics) e st = Continue (Stalled.next e st).
Proof.
  unfold Stalled.next. now destruct (iteration e st).
Qed.

Lemma stalled_fit_of_fitted (data : array2) (psf : Q) :
  Stalled.fitted data psf = true ->
  fit_gaussian (N := Stalled.numerics) data psf
    = Ok (fst (fst (Stalled.fit_of data psf)),
          snd (fst (Stalled.fit_of data psf)),
          snd (Stalled.fit_of data psf)).
Proof.
  unfold Stalled.fitted, Stalled.fit_of.
  destruct (fit_gaussian _ _) as [[[p perr] mdl]|x]; try discriminate.
  reflexivity.
Qed.

Lemma negative_width_raises_witness :
  (-4 < 0)%Z /\ run 3 image1 2 1 (-4) psf0 = Some (Raise ValueError).
Proof.
  split; [lia|].
  apply (negative_width_raises (N := numerics) 3 image1 2 1 (-4) psf0). lia.
Defined.

Lemma narrow_window_detects_nothing_witness :
  run_entries 1 image1 3 1 1 psf0 = [] /\
  forall st st',
    iteration (N := numerics) (make_env (N := numerics) image1 3 1 1 psf0) st
    <> Continue st'.
Proof.
  apply (narrow_window_detects_nothing (N := numerics) 1 image1 3 1 1 psf0
           (run_entries 1 image1 3 1 1 psf0) (run_model 1 image1 3 1 1 psf0)
           (run_residual 1 image1 3 1 1 psf0) (run_noise 1 image1 3 1 1 psf0)).
  - reflexivity.
  - apply run_returns. evaluate.
Defined.

Lemma locate_first_maximum_witness :
  exists xpix ypix,
    locate (start image1 4) 2 = Ok (xpix, ypix) /\
    get2 (residual (start image1 4)) xpix ypix == 2.
Proof.
  destruct (locate_first_maximum (start image1 4) 2)
    as (x & y & Hloc & _ & _ & Hget & _).
  - evaluate.
  - exists x, y. split; assumption.
Defined.

Lemma returned_images_shape_witness :
  has_shape (run_model 5 image2 2 1 4 psf0) 1 8 /\
  has_shape (run_residual 5 image2 2 1 4 psf0) 1 8.
Proof.
  destruct (returned_images_shape (N := numerics) 5 image2 2 1 4 psf0 1 8
              (run_entries 5 image2 2 1 4 psf0)
              (run_model 5 image2 2 1 4 psf0)
              (run_residual 5 image2 2 1 4 psf0)
              (run_noise 5 image2 2 1 4 psf0)) as [H _].
  - exact has_shape_image2.
  - lia.
  - lia.
  - apply run_returns. evaluate.
  - apply H. lia.
Defined.

Lemma untouched_outside_windows_witness :
  get2 (run_model 5 image2 2 1 4 psf0) 0 2 = 0 /\
  get2 (run_residual 5 image2 2 1 4 psf0) 0 2 = get2 image2 0 2.
Proof.
  apply (untouched_outside_windows (N := numerics) 5 image2 2 1 4 psf0 1 8
           (run_entries 5 image2 2 1 4 psf0)
           (run_model 5 image2 2 1 4 psf0) (run_residual 5 image2 2 1 4 psf0)
           (run_noise 5 image2 2 1 4 psf0)).
  - exact has_shape_image2.
  - lia.
  - lia.
  - apply run_returns. evaluate.
  - lia.
  - lia.
  - replace (run_windows (N := numerics) 5 image2 2 1 4 psf0)
      with [Window 6 10 6 10; Window 6 10 12 16] by evaluate.
    repeat constructor.
Defined.


Lemma zero_amplitude_pass_witness :
  [] = map source_amp (catalog (start image1 4)) /\
  forall i j, (i < 17)%nat -> (j < 18)%nat ->
    get2 (residual
            (Stalled.next
               (make_env (N := Stalled.numerics) image1 1 3 4 psf0)
               (start image1 4))) i j
    == get2 (residual (start image1 4)) i j.
Proof.
  apply (zero_amplitude_pass (N := Stalled.numerics)
           (make_env (N := Stalled.numerics) image1 1 3 4 psf0)
           (start image1 4)
           (Stalled.next (make_env (N := Stalled.numerics) image1 1 3 4 psf0)
              (start image1 4)) 17 18 [] 0).
  - exact (proj1 shape_start_image1).
  - apply stalled_next_completes. evaluate.
  - evaluate.
  - reflexivity.
Defined.

Lemma completed_pass_window_square_witness :
  exists w,
    window_of (make_env (N := numerics) image1 2 1 4 psf0) (start image1 4)
    = Some w /\
    (r1 w - r0 w = c1 w - c0 w)%nat /\ (0 < r1 w - r0 w)%nat.
Proof.
  apply (completed_pass_window_square (N := numerics)
           (make_env (N := numerics) image1 2 1 4 psf0) (start image1 4)
           (next (make_env (N := numerics) image1 2 1 4 psf0)
              (start image1 4)) 17 18).
  - exact (proj1 shape_start_image1).
  - lia.
  - apply next_completes. evaluate.
Defined.

Lemma window_inside_padding_witness :
  resolve (residual (start image1 4))
    (subim_slice (make_env (N := numerics) image1 2 1 4 psf0) 8 9)
  = Window 6 10 7 11.
Proof.
  destruct (window_inside_padding (N := numerics) image1 2 1 4 psf0
              (start image1 4) 1 2 0 1) as [H _].
  - lia.
  - exact (proj1 shape_start_image1).
  - lia.
  - lia.
  - exact H.
Defined.

Lemma edge_peak_raises_witness :
  iteration (N := numerics) (make_env (N := numerics) [[0]] 5 2 4 psf0)
    (start [[0]] 4) = Raised ValueError /\
  loop (N := numerics) 1 (make_env (N := numerics) [[0]] 5 2 4 psf0)
    (start [[0]] 4) = Some (Raise ValueError).
Proof.
  destruct (edge_peak_raises (N := numerics)
              (make_env (N := numerics) [[0]] 5 2 4 psf0) (start [[0]] 4)
              0 17 17 0 0 0) as (_ & H1 & H2).
  - apply (start_shapes [[0]] 1 1 4); try lia.
    split; [reflexivity | repeat constructor].
  - lia.
  - reflexivity.
  - discriminate.
  - discriminate.
  - evaluate.
  - apply Qle_by_test. evaluate.
  - evaluate.
  - left. reflexivity.
  - split; assumption.
Defined.

Lemma nonpositive_peak_multiplier_raises_witness :
  run 1 [[-1; -3]] (-2) 1 4 psf0 = Some (Raise ValueError).
Proof.
  apply (nonpositive_peak_multiplier_raises (N := numerics) 0 [[-1; -3]] 1 2
           (-2) 1 4 psf0).
  - split; [reflexivity | repeat constructor].
  - lia.
  - repeat constructor; discriminate.
  - discriminate.
  - lia.
Defined.

Lemma zero_image_never_returns_witness :
  mad_mean [[0; 0]; [0; 0]] == 0 /\
  run 1 [[0; 0]; [0; 0]] 5 2 50 10 = Some (Raise ValueError).
Proof.
  destruct (zero_image_never_returns (N := numerics) [[0; 0]; [0; 0]] 2 2)
    as [H0 H].
  - split; [reflexivity | repeat constructor].
  - lia.
  - lia.
  - repeat constructor.
  - split; [exact H0|]. exact (proj2 (proj2 (H 0%nat 5 2 50%Z 10))).
Defined.

Lemma fit_sees_bright_pixels_witness :
  get2 (fit_data (make_env (N := numerics) image1 2 1 4 psf0)
          (start image1 4) 8 9) 2 2
  == get2 (residual (start image1 4)) 8 9.
Proof.
  destruct (fit_sees_bright_pixels
              (make_env (N := numerics) image1 2 1 4 psf0) (start image1 4)
              17 18 8 9 2 2) as [H _].
  - exact (proj1 shape_start_image1).
  - lia.
  - apply Nat.ltb_lt. evaluate.
  - apply Nat.ltb_lt. evaluate.
  - apply H. apply Qlt_by_test. evaluate.
Defined.

Lemma model_axes_witness :
  has_shape (snd (Stalled.fit_of Stalled.image3 psf0)) 3 2 /\
  get2 (snd (Stalled.fit_of Stalled.image3 psf0)) 2 1
  = gauss2D (N := Stalled.numerics) (nth 1 (np_linspace 0 (of_nat 2) 2) 0)
      (nth 2 (np_linspace 0 (of_nat 3) 3) 0)
      (fst (fst (Stalled.fit_of Stalled.image3 psf0))).
Proof.
  apply (model_axes (N := Stalled.numerics) Stalled.image3 psf0
           (fst (fst (Stalled.fit_of Stalled.image3 psf0)))
           (snd (fst (Stalled.fit_of Stalled.image3 psf0)))
           (snd (Stalled.fit_of Stalled.image3 psf0)) 2 3 2 1).
  - split; [reflexivity | repeat constructor].
  - lia.
  - apply stalled_fit_of_fitted. evaluate.
  - lia.
  - lia.
Defined.

Lemma fit_starts_on_peak_witness :
  exists amp0,
    amp0 == 2 /\
    leastsq_call (N := numerics)
      (fit_data (make_env (N := numerics) image1 2 1 4 psf0)
         (start image1 4) 8 9) psf0
    = leastsq (Numerics := numerics) (err (N := numerics))
        (amp0, of_nat 2, of_nat 2, psf0, psf0)
        (flatten (fst (fit_mesh 4 4)), flatten (snd (fit_mesh 4 4)),
         flatten (fit_data (make_env (N := numerics) image1 2 1 4 psf0)
                    (start image1 4) 8 9)).
Proof.
  destruct (fit_starts_on_peak (N := numerics)
              (make_env (N := numerics) image1 2 1 4 psf0) (start image1 4)
              17 18 2 8 9) as (amp0 & Ha & _ & _ & Hcall).
  - exact (proj1 shape_start_image1).
  - lia.
  - evaluate.
  - evaluate.
  - discriminate.
  - apply Qlt_by_test. evaluate.
  - apply Nat.ltb_lt. evaluate.
  - apply Nat.leb_le. evaluate.
  - apply Nat.leb_le. evaluate.
  - apply Nat.leb_le. evaluate.
  - apply Nat.leb_le. evaluate.
  - exists amp0. split; [exact Ha | exact Hcall].
Defined.
